(** * vfs: a read-only virtual filesystem layer

    Shallow embedding of package [vfs] (native backend wrapper, fallback
    chain, subtree view) and of package [vfs/bindata] (the in-memory tree),
    together with the properties of the design document that concern them.

    Conventions.
    - A Go [error] value that may be nil is an [option error]; [None] is nil.
    - A Go map is an association list: the order of the list stands for the
      order in which the runtime happens to iterate the map, which Go leaves
      unspecified.  Statements quantified over every tree therefore hold for
      every iteration order.  Lookup takes the first binding of a key.
    - Everything a visitor or a backend can change (the heap, the disk, the
      log) is one world state [W], passed explicitly.
    - Paths follow the Unix flavour of [path/filepath]: the separator is
      the slash and there are no volume names. *)

From Stdlib Require Import List String Ascii ZArith NArith Lia Bool Arith.
From Stdlib.Strings Require Import Byte.
Import ListNotations.
Local Open Scope string_scope.
Local Open Scope list_scope.

(** ** Errors *)

(** The error values that occur in the two packages.  [PathError],
    [LinkError] and [SyscallError] are the wrapping errors of package [os];
    [Errno] is [syscall.Errno]; [ErrorString] is any value made by
    [errors.New] or [fmt.Errorf].  [errIsDirectory] and [errIsFile] are the
    two package-level values of [bindata]. *)
Inductive error : Type :=
| ErrNotExist
| EOF
| errIsDirectory
| errIsFile
| Errno (n : Z)
| PathError (Op Path : string) (Err : error)
| LinkError (Op Old New : string) (Err : error)
| SyscallError (Syscall : string) (Err : error)
| ErrorString (msg : string).

Definition ENOENT : Z := 2.
Definition EACCES : Z := 13.

(** [os.underlyingError]: one level of the three wrappers of package [os]
    is removed, nothing else. *)
Definition underlyingError (err : error) : error :=
  match err with
  | PathError _ _ e => e
  | LinkError _ _ _ e => e
  | SyscallError _ e => e
  | e => e
  end.

(** [os.IsNotExist]: the underlying error is [ErrNotExist] itself or the
    errno [ENOENT]. *)
Definition IsNotExist (err : error) : bool :=
  match underlyingError err with
  | ErrNotExist => true
  | Errno n => Z.eqb n ENOENT
  | _ => false
  end.

(** ** Strings and paths *)

Definition Separator : ascii := "/"%char.

Definition isSep (c : ascii) : bool := Ascii.eqb c Separator.

(** [strings.Split(s, "/")]: always at least one component. *)
Fixpoint Split (s : string) : list string :=
  match s with
  | EmptyString => [""]
  | String c s' =>
      if isSep c then "" :: Split s'
      else match Split s' with
           | h :: t => String c h :: t
           | [] => [String c ""]
           end
  end.

(** [strings.Join(elems, "/")]. *)
Fixpoint JoinSep (elems : list string) : string :=
  match elems with
  | [] => ""
  | [e] => e
  | e :: rest => (e ++ String Separator (JoinSep rest))%string
  end.

(** [strings.TrimLeft(s, "/")]. *)
Fixpoint TrimLeftSep (s : string) : string :=
  match s with
  | EmptyString => ""
  | String c s' => if isSep c then TrimLeftSep s' else s
  end.

Definition rooted (path : string) : bool :=
  match path with
  | String c _ => isSep c
  | EmptyString => false
  end.

(** One element of the path read by [filepath.Clean]; [out] is the output
    written so far, last element first.  An empty element and [.] are
    dropped; [..] removes the last real element if there is one, is kept
    when the path is relative and nothing can be removed, and is dropped at
    the top of a rooted path; anything else is appended. *)
Definition clean_step (isRooted : bool) (out : list string) (c : string)
  : list string :=
  if c =? "" then out
  else if c =? "." then out
  else if c =? ".." then
    match out with
    | top :: rest => if top =? ".." then ".." :: out else rest
    | [] => if isRooted then [] else [".."]
    end
  else c :: out.

(** [filepath.Clean], element by element. *)
Definition Clean (path : string) : string :=
  let out := rev (fold_left (clean_step (rooted path)) (Split path) []) in
  if rooted path then String Separator (JoinSep out)
  else match out with
       | [] => "."
       | _ => JoinSep out
       end.

(** [filepath.Join]: the elements from the first non-empty one on are
    joined with the separator and cleaned; no non-empty element gives the
    empty string. *)
Fixpoint Join (elem : list string) : string :=
  match elem with
  | [] => ""
  | e :: rest => if e =? "" then Join rest else Clean (JoinSep elem)
  end.

(** *** [filepath.Rel] *)

(** The inner loops of [Rel]: advance [i] to the next separator of [s] or
    to its end. *)
Fixpoint scan (fuel : nat) (s : string) (i : nat) : nat :=
  match fuel with
  | O => i
  | S fuel' =>
      match String.get i s with
      | Some c => if isSep c then i else scan fuel' s (S i)
      | None => i
      end
  end.

Definition slice (s : string) (lo hi : nat) : string :=
  String.substring lo (hi - lo) s.

(** The outer loop of [Rel]: position [base[b0:bi]] and [targ[t0:ti]] at
    the first elements that differ. *)
Fixpoint rel_loop (fuel : nat) (base targ : string) (b0 bi t0 ti : nat)
  : nat * nat * nat * nat :=
  match fuel with
  | O => (b0, bi, t0, ti)
  | S fuel' =>
      let bl := String.length base in
      let tl := String.length targ in
      if (bi <? bl)%nat && (ti <? tl)%nat then
        let bi := scan bl base bi in
        let ti := scan tl targ ti in
        if negb (slice targ t0 ti =? slice base b0 bi) then (b0, bi, t0, ti)
        else
          let bi := if (bi <? bl)%nat then S bi else bi in
          let ti := if (ti <? tl)%nat then S ti else ti in
          rel_loop fuel' base targ bi bi ti ti
      else (b0, bi, t0, ti)
  end.

Fixpoint count_sep (s : string) : nat :=
  match s with
  | EmptyString => O
  | String c s' => if isSep c then S (count_sep s') else count_sep s'
  end.

Fixpoint dotdots (seps : nat) : string :=
  match seps with
  | O => ".."
  | S n => (dotdots n ++ "/..")%string
  end.

Definition relError (basepath targpath : string) : error :=
  ErrorString
    ("Rel: can't make " ++ targpath ++ " relative to " ++ basepath)%string.

(** [filepath.Rel(basepath, targpath)] with its two results, for
    slash-separated paths.  Both paths are cleaned; equal paths give [.];
    a path that is [.] counts as empty; the common leading elements are
    passed over; what is left of the base is climbed with [..], which
    cannot be done when it starts with [..] itself; what is left of the
    target is appended.  Of this function the properties below use one
    value only, the path of a file relative to the directory it lies
    in. *)
Definition Rel (basepath targpath : string) : string * option error :=
  let base := Clean basepath in
  let targ := Clean targpath in
  if targ =? base then (".", None)
  else
    let base := if base =? "." then "" else base in
    let targ := if targ =? "." then "" else targ in
    if negb (Bool.eqb (rooted base) (rooted targ))
    then ("", Some (relError basepath targpath))
    else
      let bl := String.length base in
      let tl := String.length targ in
      let '(b0, bi, t0, ti) := rel_loop (S bl) base targ 0 0 0 0 in
      if slice base b0 (scan bl base b0) =? ".."
      then ("", Some (relError basepath targpath))
      else if negb (b0 =? bl)%nat then
        let up := dotdots (count_sep (slice base b0 bl)) in
        if negb (t0 =? tl)%nat
        then ((up ++ String Separator (slice targ t0 tl))%string, None)
        else (up, None)
      else (slice targ t0 tl, None).

(** ** Package bindata: the in-memory tree *)

(** [bytes.Reader]: the bytes and the read offset. *)
Record Reader : Type := mkReader { s : list byte; i : Z }.

Definition NewReader (b : list byte) : Reader := mkReader b 0.

(** [bytes.Reader.Size]: the length of the underlying bytes, whatever
    has been read. *)
Definition Reader_Size (r : Reader) : Z := Z.of_nat (List.length (s r)).

(** [bytes.Reader.Read] into a buffer of [n] bytes: the bytes copied,
    the error and the reader afterwards. *)
Definition Reader_Read (r : Reader) (n : nat)
  : list byte * option error * Reader :=
  if (i r >=? Z.of_nat (List.length (s r)))%Z then ([], Some EOF, r)
  else
    let b := firstn n (skipn (Z.to_nat (i r)) (s r)) in
    (b, None, mkReader (s r) (i r + Z.of_nat (List.length b))).

(** [type file]: a stored record has [data] and no reader, an opened one
    has a reader and no data.  [time.Time] is a number of seconds. *)
Record file : Type := mkFile {
  file_name : string;
  file_mod : Z;
  file_data : list byte;
  file_Reader : option Reader
}.

(** [type dir]; the two maps are association lists (see the conventions). *)
#[local] Unset Elimination Schemes.
Inductive dir : Type :=
  mkDir {
    dir_name : string;
    dir_files : list (string * file);
    dir_dirs : list (string * dir)
  }.
#[local] Set Elimination Schemes.

(** [m[k]] with its [ok] result. *)
Fixpoint lookup {A : Type} (k : string) (m : list (string * A)) : option A :=
  match m with
  | [] => None
  | (k', v) :: m' => if k' =? k then Some v else lookup k m'
  end.

(** The values of this package behind [http.File] and [os.FileInfo]. *)
Inductive node : Type :=
| NDir (d : dir)
| NFile (f : file).

(** [dir.file]: a fresh handle on a stored record, nil if there is
    none. *)
Definition dir_file (d : dir) (name : string) : option file :=
  match lookup name (dir_files d) with
  | None => None
  | Some f => Some (mkFile (file_name f) (file_mod f) [] (Some (NewReader (file_data f))))
  end.

(** [file.Size], promoted from the embedded reader; there is no value
    when the reader is nil. *)
Definition file_Size (f : file) : option Z :=
  option_map Reader_Size (file_Reader f).

(** [file.Stat] is the file itself; [dir.Stat] is the directory. *)
Definition node_Stat (x : node) : option node * option error := (Some x, None).

Definition node_Size (x : node) : option Z :=
  match x with
  | NDir _ => Some 0%Z
  | NFile f => file_Size f
  end.

Definition node_IsDir (x : node) : bool :=
  match x with
  | NDir _ => true
  | NFile _ => false
  end.

(** [dir.Read]: no bytes and the is-a-directory error. *)
Definition dir_Read (d : dir) (n : nat) : list byte * option error :=
  ([], Some (PathError "read" (dir_name d) errIsDirectory)).

Definition notExist (path : string) : option node * option error :=
  (None, Some (PathError "open" path ErrNotExist)).

(** The loop of [dir.Open] over the components, [current] being the
    directory reached so far. *)
Fixpoint open_loop (current : dir) (components : list string) (path : string)
  : option node * option error :=
  match components with
  | [] => (None, Some ErrNotExist)
  | [c] =>
      match dir_file current c with
      | Some f => (Some (NFile f), None)
      | None =>
          match lookup c (dir_dirs current) with
          | Some d => (Some (NDir d), None)
          | None => notExist path
          end
      end
  | c :: rest =>
      match lookup c (dir_dirs current) with
      | Some dd => open_loop dd rest path
      | None => notExist path
      end
  end.

(** The path as [dir.Open] uses it: cleaned, leading separators cut. *)
Definition normalize (path : string) : string := TrimLeftSep (Clean path).

(** [dir.Open]. *)
Definition dir_Open (d : dir) (path : string) : option node * option error :=
  let path := normalize path in
  if (path =? "") || (path =? "..") then notExist path
  else if path =? "." then (Some (NDir d), None)
  else open_loop d (Split path) path.

Section Visitors.

(** The world state, and the values behind [http.File] and
    [os.FileInfo]. *)
Variable W : Type.
Variables File FileInfo : Type.

(** [filepath.WalkFunc]. *)
Definition WalkFunc : Type :=
  string -> option FileInfo -> option error -> W -> option error * W.

(** [vfs.FileSystem]. *)
Record FileSystem : Type := mkFS {
  Open : string -> W -> (option File * option error) * W;
  Walk : string -> WalkFunc -> W -> option error * W
}.

End Visitors.

Arguments Open {W File FileInfo} _ _ _.
Arguments Walk {W File FileInfo} _ _ _ _.
Arguments mkFS {W File FileInfo} _ _.

Section MemoryWalk.

Variable W : Type.

(** [dir.walk].  The three calls of [fn] discard what it returns; the
    function returns nil. *)
Fixpoint dir_walk (d : dir) (path : string) (fn : WalkFunc W node) (w : W)
  : option error * W :=
  let w := snd (fn path (Some (NDir d)) None w) in
  let w :=
    fold_left
      (fun w kv =>
         let name := fst kv in
         snd (fn (Join [path; name]) (option_map NFile (dir_file d name)) None w))
      (dir_files d) w in
  let w :=
    (fix range (m : list (string * dir)) (w : W) : W :=
       match m with
       | [] => w
       | (name, dd) :: m' =>
           range m' (snd (dir_walk dd (Join [path; name]) fn w))
       end) (dir_dirs d) w in
  (None, w).

(** [dir.Walk]. *)
Definition dir_Walk (d : dir) (path : string) (fn : WalkFunc W node) (w : W)
  : option error * W :=
  match dir_Open d path with
  | (_, Some err) => (Some err, w)
  | (Some (NDir x), None) => dir_walk x path fn w
  | (_, None) => (Some (PathError "walk" path errIsFile), w)
  end.

(** The tree as a [vfs.FileSystem]. *)
Definition dirFS (d : dir) : FileSystem W node node :=
  mkFS (fun path w => (dir_Open d path, w)) (dir_Walk d).

End MemoryWalk.

Arguments dir_walk {W} _ _ _ _.
Arguments dir_Walk {W} _ _ _ _.
Arguments dirFS {W} _.

(** ** Package vfs *)

Section Vfs.

Variable W : Type.
Variables File FileInfo : Type.

(** [stripPrefixWalkFunc] of vfs.go. *)
Definition stripPrefixWalkFunc (f : WalkFunc W FileInfo) (prefix : string)
  : WalkFunc W FileInfo :=
  fun path info err w =>
    match err with
    | Some e => (Some e, w)
    | None =>
        let path := Clean path in
        let '(path, err) := Rel prefix path in
        match err with
        | Some e => (Some e, w)
        | None => f path info err w
        end
    end.

(** [nativeFS.Walk]; [filepath_Walk] is the walk of the host file system
    and [Dir] the root of the backend. *)
Definition nativeFS_Walk
    (filepath_Walk : string -> WalkFunc W FileInfo -> W -> option error * W)
    (Dir : string) (root : string) (f : WalkFunc W FileInfo) (w : W)
  : option error * W :=
  let root := Join [Dir; root] in
  let f := stripPrefixWalkFunc f Dir in
  filepath_Walk root f w.

(** [type fallbackFS []FileSystem]. *)
Definition fallbackFS : Type := list (FileSystem W File FileInfo).

(** The loop of [fallbackFS.Open]; [f] and [err] are the two variables
    declared before it.  Writing to the log is not part of the model. *)
Fixpoint fallbackFS_Open_loop (fs : fallbackFS) (name : string)
    (f : option File) (err : option error) (w : W)
  : (option File * option error) * W :=
  match fs with
  | [] => ((f, err), w)
  | attempt :: rest =>
      let '((f, err), w) := Open attempt name w in
      match err with
      | None => ((f, err), w)
      | Some _ => fallbackFS_Open_loop rest name f err w
      end
  end.

(** [fallbackFS.Open]. *)
Definition fallbackFS_Open (fs : fallbackFS) (name : string) (w : W)
  : (option File * option error) * W :=
  fallbackFS_Open_loop fs name None None w.

(** The two tests of [fallbackFS.Walk] that lead to [continue]. *)
Definition continues (root : string) (err : error) : bool :=
  if IsNotExist err then true
  else match err with
       | PathError _ Path Err => IsNotExist Err && (Path =? root)
       | _ => false
       end.

(** [fallbackFS.Walk]. *)
Fixpoint fallbackFS_Walk (fs : fallbackFS) (root : string)
    (f : WalkFunc W FileInfo) (w : W) : option error * W :=
  match fs with
  | [] => (None, w)
  | attempt :: rest =>
      let '(err, w) := Walk attempt root f w in
      match err with
      | None => (None, w)
      | Some e =>
          if continues root e then fallbackFS_Walk rest root f w
          else (Some e, w)
      end
  end.

(** [Fallback]. *)
Definition Fallback (fs : fallbackFS) : FileSystem W File FileInfo :=
  mkFS (fallbackFS_Open fs) (fallbackFS_Walk fs).

(** [type subdir]. *)
Record subdir : Type := mkSubdir {
  subdir_fs : FileSystem W File FileInfo;
  subdir_path : string
}.

(** [subdir.Open]. *)
Definition subdir_Open (fs : subdir) (name : string) (w : W)
  : (option File * option error) * W :=
  let path := Join [subdir_path fs; name] in
  Open (subdir_fs fs) path w.

(** [subdir.Walk]. *)
Definition subdir_Walk (fs : subdir) (root : string)
    (f : WalkFunc W FileInfo) (w : W) : option error * W :=
  let path := Join [subdir_path fs; root] in
  Walk (subdir_fs fs) path f w.

(** [Subdir]. *)
Definition Subdir (fs : FileSystem W File FileInfo) (path : string)
  : FileSystem W File FileInfo :=
  let v := mkSubdir fs path in
  mkFS (subdir_Open v) (subdir_Walk v).

End Vfs.

Arguments stripPrefixWalkFunc {W FileInfo} _ _ _ _ _ _.
Arguments nativeFS_Walk {W FileInfo} _ _ _ _ _.
Arguments fallbackFS_Open_loop {W File FileInfo} _ _ _ _ _.
Arguments fallbackFS_Open {W File FileInfo} _ _ _.
Arguments fallbackFS_Walk {W File FileInfo} _ _ _ _.
Arguments Fallback {W File FileInfo} _.
Arguments mkSubdir {W File FileInfo} _ _.
Arguments subdir_fs {W File FileInfo} _.
Arguments subdir_path {W File FileInfo} _.
Arguments subdir_Open {W File FileInfo} _ _ _.
Arguments subdir_Walk {W File FileInfo} _ _ _ _.
Arguments Subdir {W File FileInfo} _ _.

(** The second copy of package vfs that the repository carries (the
    second half of unnamed/part_001).  It has the native backend only, and
    its wrapper differs from the one of vfs.go. *)
Module Unnamed.

(** [stripPrefixWalkFunc] of that copy: the incoming [err] is overwritten
    by the result of [filepath.Rel] before it is looked at. *)
Definition stripPrefixWalkFunc {W FileInfo : Type}
    (f : WalkFunc W FileInfo) (prefix : string) : WalkFunc W FileInfo :=
  fun path info err w =>
    let path := Clean path in
    let '(path, err) := Rel prefix path in
    match err with
    | Some e => (Some e, w)
    | None => f path info err w
    end.

End Unnamed.

(** ** Registration *)

(** [m[k] = v]: the binding of [k] is replaced where it stands, a new key
    is added. *)
Fixpoint assign {A : Type} (k : string) (v : A) (m : list (string * A))
  : list (string * A) :=
  match m with
  | [] => [(k, v)]
  | (k', v') :: m' =>
      if k' =? k then (k, v) :: m' else (k', v') :: assign k v m'
  end.

(** Modelled from the spec: the loop of [RegisterFile], whose source is not
    part of the files at hand.  For every component but the last the child
    directory is looked up or created; the last component is stored as a
    file record in the file map of the directory reached, over any record
    already there. *)
Fixpoint register_loop (current : dir) (components : list string)
    (modtime : Z) (content : list byte) : dir :=
  match components with
  | [] => current
  | [c] =>
      mkDir (dir_name current)
            (assign c (mkFile c modtime content None) (dir_files current))
            (dir_dirs current)
  | c :: rest =>
      let child :=
        match lookup c (dir_dirs current) with
        | Some dd => dd
        | None => mkDir c [] []
        end in
      mkDir (dir_name current) (dir_files current)
            (assign c (register_loop child rest modtime content)
                    (dir_dirs current))
  end.

(** Modelled from the spec: [RegisterFile], whose source is not part of the
    files at hand.  The path is normalized as [dir.Open] normalizes it
    (cleaned, no leading separator) and split into components. *)
Definition RegisterFile (root : dir) (path : string) (modtime : Z)
    (content : list byte) : dir :=
  register_loop root (Split (normalize path)) modtime content.

(** [P] is registered in the tree with content [C]: the latest registration
    of the normalized path [P] carried [C]. *)
Inductive Registered : dir -> string -> list byte -> Prop :=
| Registered_last : forall d P t C,
    Registered (RegisterFile d P t C) P C
| Registered_earlier : forall d P C Q t C',
    Registered d P C ->
    normalize Q <> normalize P ->
    Registered (RegisterFile d Q t C') P C.

(** The record stored at a list of components, if there is one. *)
Fixpoint stored (d : dir) (components : list string) : option file :=
  match components with
  | [] => None
  | [c] => lookup c (dir_files d)
  | c :: rest =>
      match lookup c (dir_dirs d) with
      | Some dd => stored dd rest
      | None => None
      end
  end.

(** The three normalized paths that [dir.Open] does not split. *)
Definition unsplit (path : string) : bool :=
  (path =? "") || (path =? "..") || (path =? ".").

(** ** Reading a handle *)

(** [file.Read], promoted from the embedded reader; no value when the
    reader is nil. *)
Definition file_Read (f : file) (n : nat)
  : option (list byte * option error * file) :=
  match file_Reader f with
  | None => None
  | Some r =>
      let '(b, err, r') := Reader_Read r n in
      Some (b, err, mkFile (file_name f) (file_mod f) (file_data f) (Some r'))
  end.

(** A client that reads a handle to the end: [Read] with a buffer of [n]
    bytes until it reports an error, the bytes collected.  [fuel] bounds
    the number of calls. *)
Fixpoint read_to_end (fuel : nat) (f : file) (n : nat) : option (list byte) :=
  match fuel with
  | O => None
  | S fuel' =>
      match file_Read f n with
      | None => None
      | Some (b, Some _, _) => Some b
      | Some (b, None, f') =>
          option_map (fun rest => b ++ rest) (read_to_end fuel' f' n)
      end
  end.

(** ** What a walk visits *)

Section Calls.

Variable W : Type.

(** One call of the visitor, its result dropped as [dir.walk] drops it. *)
Definition call (fn : WalkFunc W node) (w : W) (e : string * option node)
  : W :=
  snd (fn (fst e) (snd e) None w).

End Calls.

Arguments call {W} _ _ _.

(** The visitor that writes down what it is called with, and whether it
    asks to stop. *)
Definition recorder (stop : bool)
  : WalkFunc (list (string * option node)) node :=
  fun path info _ log =>
    ((if stop then Some (ErrorString "stop") else None), log ++ [(path, info)]).

(** The members of a tree are named by the names on the way down and by
    the map the last name is taken from. *)
Inductive kind : Type := KFile | KDir.

Definition address : Type := (list string * kind)%type.

(** The member at an address, as the visitor receives it. *)
Fixpoint node_at (d : dir) (names : list string) (k : kind) : option node :=
  match names with
  | [] => match k with KDir => Some (NDir d) | KFile => None end
  | n :: rest =>
      match rest, k with
      | [], KFile => option_map NFile (dir_file d n)
      | _, _ =>
          match lookup n (dir_dirs d) with
          | Some dd => node_at dd rest k
          | None => None
          end
      end
  end.

(** The path reported for an address under the path [p] of the root. *)
Definition path_at (p : string) (names : list string) : string :=
  fold_left (fun p n => Join [p; n]) names p.

Definition under (n : string) (a : address) : address := (n :: fst a, snd a).

(** The addresses of a tree: the directory, its files, then every
    subdirectory with what is below it. *)
Fixpoint addrs (d : dir) : list address :=
  ([], KDir)
    :: map (fun kv => ([fst kv], KFile)) (dir_files d)
    ++ (fix below (m : list (string * dir)) : list address :=
          match m with
          | [] => []
          | (n, dd) :: m' => map (under n) (addrs dd) ++ below m'
          end) (dir_dirs d).

(** The keys of a map are distinct. *)
Fixpoint distinct (l : list string) : bool :=
  match l with
  | [] => true
  | x :: l' => negb (existsb (String.eqb x) l') && distinct l'
  end.

(** The tree is one that Go maps can hold: no key twice in a map. *)
Fixpoint wf (d : dir) : bool :=
  distinct (map fst (dir_files d))
  && distinct (map fst (dir_dirs d))
  && (fix all (m : list (string * dir)) : bool :=
        match m with
        | [] => true
        | (_, dd) :: m' => wf dd && all m'
        end) (dir_dirs d).

(** [x] stands before [y] in [l]. *)
Definition before {A : Type} (x y : A) (l : list A) : Prop :=
  exists l1 l2 l3, l = l1 ++ x :: l2 ++ y :: l3.

(** Everything a walk of [d] under the path [p] hands to the visitor, in
    the order of the walk. *)
Fixpoint visits (d : dir) (p : string) : list (string * option node) :=
  (p, Some (NDir d))
    :: map (fun kv => (Join [p; fst kv], option_map NFile (dir_file d (fst kv))))
           (dir_files d)
    ++ (fix below (m : list (string * dir)) : list (string * option node) :=
          match m with
          | [] => []
          | (n, dd) :: m' => visits dd (Join [p; n]) ++ below m'
          end) (dir_dirs d).

(** What the visitor receives for an address of [d] walked under [p]. *)
Definition entry (d : dir) (p : string) (a : address) : string * option node :=
  (path_at p (fst a), node_at d (fst a) (snd a)).

(** ** Runs of a fallback chain *)

Section Runs.

Variable W : Type.
Variables File FileInfo : Type.

(** Every backend of the list, tried in order from [w], fails to open
    [name]; the world after the last of them. *)
Fixpoint opens_fail (fs : fallbackFS W File FileInfo) (name : string)
    (w : W) : option W :=
  match fs with
  | [] => Some w
  | attempt :: rest =>
      match Open attempt name w with
      | ((_, Some _), w') => opens_fail rest name w'
      | ((_, None), _) => None
      end
  end.

(** Every backend of the list, walked in order from [w], fails with an
    error after which the chain goes on; the world after the last of
    them. *)
Fixpoint walks_continue (fs : fallbackFS W File FileInfo) (root : string)
    (f : WalkFunc W FileInfo) (w : W) : option W :=
  match fs with
  | [] => Some w
  | attempt :: rest =>
      match Walk attempt root f w with
      | (Some e, w') =>
          if continues root e then walks_continue rest root f w' else None
      | (None, _) => None
      end
  end.

End Runs.

Arguments opens_fail {W File FileInfo} _ _ _.
Arguments walks_continue {W File FileInfo} _ _ _ _.

(** ** Sample values *)

Definition emptyRoot : dir := mkDir "" [] [].

(** A tree with the file [x] and the file [dir/a.txt]. *)
Definition sampleTree : dir :=
  RegisterFile (RegisterFile emptyRoot "x" 0 [x68; x69]) "dir/a.txt" 0 [x00; xff].

(** A visitor that writes down the path and hands back the error it was
    given. *)
Definition logger {FileInfo : Type} : WalkFunc (list string) FileInfo :=
  fun path _ err log => (err, log ++ [path]).

(** A backend over a directory with the entries [a.txt] and [b.txt]; it
    stops as soon as the visitor returns an error. *)
Definition healthy : FileSystem (list string) unit unit :=
  mkFS (fun name w => ((Some tt, None), w))
       (fun root f w =>
          match f root (Some tt) None w with
          | (Some e, w) => (Some e, w)
          | (None, w) =>
              match f (Join [root; "a.txt"]) (Some tt) None w with
              | (Some e, w) => (Some e, w)
              | (None, w) => f (Join [root; "b.txt"]) (Some tt) None w
              end
          end).

(** The same backend when [b.txt] has gone between the listing of the
    directory and the look at the entry: the visitor is called for it with
    the error of the host. *)
Definition vanished : FileSystem (list string) unit unit :=
  mkFS (fun name w => ((None, Some (PathError "open" name (Errno ENOENT))), w))
       (fun root f w =>
          match f root (Some tt) None w with
          | (Some e, w) => (Some e, w)
          | (None, w) =>
              match f (Join [root; "a.txt"]) (Some tt) None w with
              | (Some e, w) => (Some e, w)
              | (None, w) =>
                  let p := Join [root; "b.txt"] in
                  f p None (Some (PathError "lstat" p (Errno ENOENT))) w
              end
          end).

(** A visitor that writes down the path and asks to stop. *)
Definition stopper {FileInfo : Type} : WalkFunc (list string) FileInfo :=
  fun path _ _ log => (Some (ErrorString "stop"), log ++ [path]).

(** An entry of a host walk that arrives with an error. *)
Definition denied : error := PathError "lstat" "/srv/a.txt" (Errno EACCES).

(** ** Package bindata: listing a directory *)

(** [dir.Readdir]: a fresh handle for every key of the file map, then every
    value of the directory map; [count] is not looked at and the error is
    nil. *)
Definition dir_Readdir (d : dir) (count : Z)
  : list (option node) * option error :=
  (map (fun kv => option_map NFile (dir_file d (fst kv))) (dir_files d)
     ++ map (fun kv => Some (NDir (snd kv))) (dir_dirs d),
   None).

(** [file.Readdir]. *)
Definition file_Readdir (f : file) (count : Z)
  : list (option node) * option error :=
  ([], Some (PathError "readdir" (file_name f) errIsFile)).

(** ** Names without structure *)

Fixpoint has_sep (s0 : string) : bool :=
  match s0 with
  | EmptyString => false
  | String c s' => isSep c || has_sep s'
  end.

(** A name that is one path element and nothing special: not empty, not
    [.] or [..], no separator in it. *)
Definition plain (n : string) : bool :=
  negb (n =? "") && negb (n =? ".") && negb (n =? "..") && negb (has_sep n).

(** ** Command bindata *)

(** What [stringEncoder.Write] uses of [*bufio.Writer]: the state [B] is
    the writer with all that lies behind it. *)
Record Writer (B : Type) : Type := mkWriter {
  bw_WriteString : list byte -> B -> option error * B;
  bw_WriteByte : byte -> B -> option error * B;
  bw_Write : list byte -> B -> option error * B;
  bw_Flush : B -> option error * B
}.

Arguments mkWriter {B} _ _ _ _.
Arguments bw_WriteString {B} _ _ _.
Arguments bw_WriteByte {B} _ _ _.
Arguments bw_Write {B} _ _ _.
Arguments bw_Flush {B} _ _.

(** One digit of the verb [%x]. *)
Definition hexdigit (n : N) : byte :=
  nth (N.to_nat n)
      [x30; x31; x32; x33; x34; x35; x36; x37; x38; x39;
       x61; x62; x63; x64; x65; x66] x30.

(** The text of [fmt.Fprintf(w, `\x%02x`, b)]. *)
Definition format_x02x (b : byte) : list byte :=
  [x5c; x78; hexdigit (N.div (Byte.to_N b) 16); hexdigit (N.modulo (Byte.to_N b) 16)].

Section StringEncoder.

Variable B : Type.
Variable w : Writer B.

(** The body of the loop of [stringEncoder.Write] for the byte [b]. *)
Definition encode_byte (b : byte) (st : B) : option error * B :=
  if Byte.eqb b x0a then bw_WriteString w [x5c; x6e] st
  else if Byte.eqb b x5c then bw_WriteString w [x5c; x5c] st
  else if Byte.eqb b x22 then bw_WriteString w [x5c; x22] st
  else if (N.leb 32 (Byte.to_N b) && N.ltb (Byte.to_N b) 127)%bool
       then bw_WriteByte w b st
       else bw_Write w (format_x02x b) st.

(** The loop of [stringEncoder.Write]: the error that ends it, if any. *)
Fixpoint encode_loop (p : list byte) (st : B) : option error * B :=
  match p with
  | [] => (None, st)
  | b :: p' =>
      let '(err, st) := encode_byte b st in
      match err with
      | Some e => (Some e, st)
      | None => encode_loop p' st
      end
  end.

(** [stringEncoder.Write]. *)
Definition stringEncoder_Write (p : list byte) (st : B)
  : (Z * option error) * B :=
  let '(err, st) := encode_loop p st in
  match err with
  | Some e => ((0%Z, Some e), st)
  | None =>
      let '(err, st) := bw_Flush w st in
      ((Z.of_nat (List.length p), err), st)
  end.

End StringEncoder.

Arguments encode_byte {B} _ _ _.
Arguments encode_loop {B} _ _ _.
Arguments stringEncoder_Write {B} _ _ _.

(** A writer into memory that never fails: the state is what has been
    written. *)
Definition memWriter : Writer (list byte) :=
  mkWriter (fun x st => (None, st ++ x))
           (fun b st => (None, st ++ [b]))
           (fun x st => (None, st ++ x))
           (fun st => (None, st)).

(** A writer into memory that holds [cap] bytes and fails, without taking
    anything, when a write would go beyond. *)
Definition limitedWriter (cap : nat) : Writer (list byte) :=
  let put := fun (x st : list byte) =>
    if (List.length (st ++ x) <=? cap)%nat then (None, st ++ x)
    else (Some (Errno 28), st) in
  mkWriter put (fun b st => put [b] st) put (fun st => (None, st)).

(** The text the encoder produces for [p]. *)
Definition encoded (p : list byte) : list byte :=
  snd (stringEncoder_Write memWriter p []).

(** The value of a hexadecimal digit. *)
Definition hexval (c : byte) : option N :=
  let n := Byte.to_N c in
  if (N.leb 48 n && N.leb n 57)%bool then Some (n - 48)%N
  else if (N.leb 97 n && N.leb n 102)%bool then Some (n - 87)%N
  else if (N.leb 65 n && N.leb n 70)%bool then Some (n - 55)%N
  else None.

(** The bytes a Go interpreted string literal with the body [l] denotes,
    for the escapes the encoder writes; a raw double quote or newline, an
    unknown escape or a cut one make the literal ill-formed. *)
Fixpoint unquote (l : list byte) : option (list byte) :=
  match l with
  | [] => Some []
  | c :: r =>
      if Byte.eqb c x5c then
        match r with
        | [] => None
        | e :: r1 =>
            if Byte.eqb e x6e then option_map (cons x0a) (unquote r1)
            else if Byte.eqb e x5c then option_map (cons x5c) (unquote r1)
            else if Byte.eqb e x22 then option_map (cons x22) (unquote r1)
            else if Byte.eqb e x78 then
              match r1 with
              | h1 :: h2 :: r2 =>
                  match hexval h1, hexval h2 with
                  | Some a, Some b =>
                      match Byte.of_N (a * 16 + b) with
                      | Some x => option_map (cons x) (unquote r2)
                      | None => None
                      end
                  | _, _ => None
                  end
              | _ => None
              end
            else None
        end
      else if (Byte.eqb c x22 || Byte.eqb c x0a)%bool then None
      else option_map (cons c) (unquote r)
  end.

(** A byte of printable ASCII. *)
Definition printable (c : byte) : bool :=
  (N.leb 32 (Byte.to_N c) && N.ltb (Byte.to_N c) 127)%bool.

Section MatchList.

(** [filepath.Match(pattern, name)] with its two results. *)
Variable Match : string -> string -> bool * option error.

(** [matchList]. *)
Definition matchList (name : string) (patterns : list string) : bool :=
  match patterns with
  | [] => false
  | _ =>
      (fix range (l : list string) : bool :=
         match l with
         | [] => false
         | pat :: l' => if fst (Match pat name) then true else range l'
         end) patterns
  end.

End MatchList.

(** * Properties *)

(** ** Induction on trees *)

Section DirInd.

Variable P : dir -> Prop.
Hypothesis step :
  forall name files dirs,
    Forall (fun kv => P (snd kv)) dirs -> P (mkDir name files dirs).

Fixpoint dir_ind (d : dir) : P d :=
  match d with
  | mkDir name files dirs =>
      step name files dirs
        ((fix all (m : list (string * dir))
           : Forall (fun kv => P (snd kv)) m :=
            match m with
            | [] => Forall_nil _
            | kv :: m' => Forall_cons kv (dir_ind (snd kv)) (all m')
            end) dirs)
  end.

End DirInd.

(** ** Maps *)

Lemma lookup_assign_same {A : Type} (k : string) (v : A) m :
  lookup k (assign k v m) = Some v.
Proof.
  induction m as [|[k' v'] m IH]; simpl.
  - now rewrite String.eqb_refl.
  - destruct (k' =? k) eqn:E; simpl.
    + now rewrite String.eqb_refl.
    + now rewrite E.
Qed.

Lemma lookup_assign_other {A : Type} (k k' : string) (v : A) m :
  k' <> k -> lookup k (assign k' v m) = lookup k m.
Proof.
  intros Hne. induction m as [|[k0 v0] m IH]; simpl.
  - destruct (k' =? k) eqn:E; [apply String.eqb_eq in E; contradiction|reflexivity].
  - destruct (k0 =? k') eqn:E; simpl.
    + apply String.eqb_eq in E. subst k0.
      destruct (k' =? k) eqn:E'; [apply String.eqb_eq in E'; contradiction|reflexivity].
    + destruct (k0 =? k); [reflexivity|exact IH].
Qed.

(** ** Splitting paths *)

Lemma Split_not_nil s : Split s <> [].
Proof.
  destruct s as [|c s]; simpl; [discriminate|].
  destruct (isSep c); [discriminate|].
  destruct (Split s); discriminate.
Qed.

Lemma JoinSep_cons e rest :
  rest <> [] -> JoinSep (e :: rest) = (e ++ String Separator (JoinSep rest))%string.
Proof. destruct rest; [congruence|reflexivity]. Qed.

Lemma isSep_true c : isSep c = true -> c = Separator.
Proof. apply Ascii.eqb_eq. Qed.

Lemma JoinSep_Split s : JoinSep (Split s) = s.
Proof.
  induction s as [|c s IH]; [reflexivity|].
  simpl Split. destruct (isSep c) eqn:Hc.
  - rewrite JoinSep_cons by apply Split_not_nil.
    rewrite IH. simpl. now rewrite (isSep_true c Hc).
  - pose proof (Split_not_nil s) as Hn.
    destruct (Split s) as [|h t]; [congruence|].
    destruct t as [|h' t].
    + simpl in *. now rewrite IH.
    + rewrite JoinSep_cons by discriminate.
      rewrite JoinSep_cons in IH by discriminate.
      rewrite <- IH. reflexivity.
Qed.

Lemma Split_inj s1 s2 : Split s1 = Split s2 -> s1 = s2.
Proof.
  intros H. rewrite <- (JoinSep_Split s1), <- (JoinSep_Split s2). now rewrite H.
Qed.

(** ** Opening special paths *)

(** C4, as the code has it: a path whose normal form is [..] fails with
    a not-found error, so [Open("..")] does; a path whose normal form is
    [.] is the directory itself, so [Open(".")] is, and so is [Open("")],
    the empty path being cleaned to [.]; and every path whose normal form
    is empty, such as a path of separators only, fails with a not-found
    error. *)
Theorem dir_Open_special (d : dir) :
  (forall path, normalize path = ".." ->
     dir_Open d path = (None, Some (PathError "open" ".." ErrNotExist)))
  /\ (forall path, normalize path = "." ->
        dir_Open d path = (Some (NDir d), None))
  /\ (forall path, normalize path = "" ->
        dir_Open d path = (None, Some (PathError "open" "" ErrNotExist)))
  /\ IsNotExist (PathError "open" ".." ErrNotExist) = true
  /\ IsNotExist (PathError "open" "" ErrNotExist) = true
  /\ dir_Open d ".." = (None, Some (PathError "open" ".." ErrNotExist))
  /\ dir_Open d "." = (Some (NDir d), None)
  /\ dir_Open d "" = (Some (NDir d), None)
  /\ dir_Open d "/" = (None, Some (PathError "open" "" ErrNotExist)).
Proof.
  split; [|split; [|split]].
  - intros path H. unfold dir_Open. now rewrite H.
  - intros path H. unfold dir_Open. now rewrite H.
  - intros path H. unfold dir_Open. now rewrite H.
  - repeat split.
Qed.

Lemma dir_Open_special_witness :
  dir_Open sampleTree "a/../.." = (None, Some (PathError "open" ".." ErrNotExist))
  /\ dir_Open sampleTree "dir/.." = (Some (NDir sampleTree), None)
  /\ dir_Open sampleTree "//" = (None, Some (PathError "open" "" ErrNotExist)).
Proof.
  destruct (dir_Open_special sampleTree) as [H1 [H2 [H3 _]]].
  split; [|split].
  - apply H1. reflexivity.
  - apply H2. reflexivity.
  - apply H3. reflexivity.
Defined.

(** C4, as stated, fails on the empty path: opening it on the empty tree
    gives the root directory and no error. *)
Lemma dir_Open_empty_path_is_root :
  dir_Open emptyRoot "" = (Some (NDir emptyRoot), None)
  /\ ~ (exists e, snd (dir_Open emptyRoot "") = Some e /\ IsNotExist e = true).
Proof.
  split; [reflexivity|].
  intros [e [H _]]. discriminate H.
Qed.

(** ** Walking a file *)

(** C9: when the root of a walk on the memory tree opens as a file, the
    walk returns the is-a-file error for that path and the world is what
    it was: the visitor has not been called. *)
Theorem dir_Walk_file (W : Type) (d : dir) (path : string) (f : file)
    (fn : WalkFunc W node) (w : W) :
  dir_Open d path = (Some (NFile f), None) ->
  dir_Walk d path fn w = (Some (PathError "walk" path errIsFile), w).
Proof.
  intros H. unfold dir_Walk. now rewrite H.
Qed.

Lemma dir_Walk_file_witness :
  dir_Walk sampleTree "dir/a.txt" (recorder false) []
  = (Some (PathError "walk" "dir/a.txt" errIsFile), []).
Proof.
  apply (dir_Walk_file _ sampleTree "dir/a.txt"
           (mkFile "a.txt" 0 [] (Some (NewReader [x00; xff])))).
  reflexivity.
Defined.

(** ** The subtree view *)

(** C8: [Open] and [Walk] on the view of [F] at [p] are [Open] and [Walk]
    of [F] at the join of [p] and the given path, results and world alike;
    the view at [assets] opens [logo.png] as [assets/logo.png]. *)
Theorem Subdir_delegates (W File FileInfo : Type)
    (F : FileSystem W File FileInfo) (p q : string) :
  (forall w, Open (Subdir F p) q w = Open F (Join [p; q]) w)
  /\ (forall v w, Walk (Subdir F p) q v w = Walk F (Join [p; q]) v w)
  /\ (forall w, Open (Subdir F "assets") "logo.png" w = Open F "assets/logo.png" w).
Proof. repeat split. Qed.

(** ** The wrapper of the native backend *)

(** The wrapper of vfs.go hands an incoming error back as it is, whatever
    the path and the prefix are, and leaves the world alone: the visitor is
    not called. *)
Lemma stripPrefixWalkFunc_error_first (W FileInfo : Type)
    (f : WalkFunc W FileInfo) (prefix path : string)
    (info : option FileInfo) (e : error) (w : W) :
  stripPrefixWalkFunc f prefix path info (Some e) w = (Some e, w).
Proof. reflexivity. Qed.

(** C7, on the copy of the wrapper in the unnamed file: when the relative
    path can be computed, an incoming error is dropped and the visitor is
    called with the relative path and a nil error. *)
Theorem Unnamed_stripPrefixWalkFunc_drops_error (W FileInfo : Type)
    (f : WalkFunc W FileInfo) (prefix path rel : string)
    (info : option FileInfo) (e : error) (w : W) :
  Rel prefix (Clean path) = (rel, None) ->
  Unnamed.stripPrefixWalkFunc f prefix path info (Some e) w
  = f rel info None w.
Proof.
  intros H. unfold Unnamed.stripPrefixWalkFunc. now rewrite H.
Qed.

Lemma Unnamed_stripPrefixWalkFunc_drops_error_witness :
  Unnamed.stripPrefixWalkFunc (@logger unit) "/srv" "/srv/a.txt" None
    (Some denied) []
  = (None, ["a.txt"]).
Proof.
  apply (Unnamed_stripPrefixWalkFunc_drops_error _ _ logger "/srv" "/srv/a.txt" "a.txt").
  reflexivity.
Defined.

(** ** The fallback chain: Open *)

Section FallbackOpen.

Variable W : Type.
Variables File FileInfo : Type.

Implicit Types (fs pre post : fallbackFS W File FileInfo).

(** The result carried into the loop is forgotten once a backend has been
    tried. *)
Lemma fallbackFS_Open_loop_app pre post name f err w w1 :
  opens_fail pre name w = Some w1 ->
  post <> [] ->
  fallbackFS_Open_loop (pre ++ post) name f err w
  = fallbackFS_Open_loop post name None None w1.
Proof.
  revert f err w. induction pre as [|a pre IH]; intros f err w Hpre Hpost.
  - simpl in *. injection Hpre as <-.
    destruct post as [|b post]; [congruence|]. reflexivity.
  - simpl in *. destruct (Open a name w) as [[f' [e'|]] w'] eqn:E; [|discriminate].
    now apply IH.
Qed.

(** C6: in a chain [pre ++ b :: post] whose backends [pre] all fail to
    open [name], a success of [b] is the result of the chain, with the
    world as [b] left it, so no backend of [post] has been tried; and when
    [b] is the last backend and fails too, its handle and its error are
    the result of the chain. *)
Theorem fallbackFS_Open_first_success_or_last_error pre b name w w1 :
  opens_fail pre name w = Some w1 ->
  (forall post f w2,
      Open b name w1 = ((f, None), w2) ->
      fallbackFS_Open (pre ++ b :: post) name w = ((f, None), w2))
  /\ (forall f e w2,
      Open b name w1 = ((f, Some e), w2) ->
      fallbackFS_Open (pre ++ [b]) name w = ((f, Some e), w2)).
Proof.
  intros Hpre. split.
  - intros post f w2 Hb. unfold fallbackFS_Open.
    rewrite (fallbackFS_Open_loop_app pre (b :: post) name None None w w1 Hpre)
      by discriminate.
    simpl. now rewrite Hb.
  - intros f e w2 Hb. unfold fallbackFS_Open.
    rewrite (fallbackFS_Open_loop_app pre [b] name None None w w1 Hpre)
      by discriminate.
    simpl. now rewrite Hb.
Qed.

End FallbackOpen.

Lemma fallbackFS_Open_first_success_or_last_error_witness :
  fallbackFS_Open [dirFS emptyRoot; dirFS sampleTree; dirFS emptyRoot] "x" tt
  = ((Some (NFile (mkFile "x" 0 [] (Some (NewReader [x68; x69])))), None), tt)
  /\ fallbackFS_Open [dirFS emptyRoot; dirFS emptyRoot] "x" tt
     = ((None, Some (PathError "open" "x" ErrNotExist)), tt).
Proof.
  split.
  - apply (proj1 (fallbackFS_Open_first_success_or_last_error
                    unit node node [dirFS emptyRoot] (dirFS sampleTree) "x" tt tt
                    eq_refl) [dirFS emptyRoot]).
    reflexivity.
  - apply (proj2 (fallbackFS_Open_first_success_or_last_error
                    unit node node [dirFS emptyRoot] (dirFS emptyRoot) "x" tt tt
                    eq_refl)).
    reflexivity.
Defined.

(** ** The fallback chain: Walk *)

(** Every error of [dir.Open] is a not-found error. *)
Lemma dir_Open_error_IsNotExist d path e :
  snd (dir_Open d path) = Some e -> IsNotExist e = true.
Proof.
  unfold dir_Open.
  destruct ((normalize path =? "") || (normalize path =? "..")).
  { simpl. intros [= <-]. reflexivity. }
  destruct (normalize path =? ".").
  { discriminate. }
  generalize (Split (normalize path)) as comps. generalize (normalize path) as p.
  intros p comps. revert d. induction comps as [|c rest IH]; intros d.
  - simpl. intros [= <-]. reflexivity.
  - destruct rest as [|c' rest].
    + simpl. destruct (dir_file d c); [discriminate|].
      destruct (lookup c (dir_dirs d)); [discriminate|].
      simpl. intros [= <-]. reflexivity.
    + change (open_loop d (c :: c' :: rest) p)
        with (match lookup c (dir_dirs d) with
              | Some dd => open_loop dd (c' :: rest) p
              | None => notExist p
              end).
      destruct (lookup c (dir_dirs d)) as [dd|]; [apply IH|].
      simpl. intros [= <-]. reflexivity.
Qed.

Section FallbackWalk.

Variable W : Type.
Variables File FileInfo : Type.

Implicit Types (fs pre rest : fallbackFS W File FileInfo).

Lemma fallbackFS_Walk_app pre rest root f w w1 :
  walks_continue pre root f w = Some w1 ->
  fallbackFS_Walk (pre ++ rest) root f w = fallbackFS_Walk rest root f w1.
Proof.
  revert w. induction pre as [|a pre IH]; intros w H; simpl in *.
  - now injection H as <-.
  - destruct (Walk a root f w) as [[e|] w']; [|discriminate].
    destruct (continues root e); [now apply IH|discriminate].
Qed.

(** The chain hands on, unchanged, the first error after which it does
    not go on, with the world as the failing backend left it: no later
    backend is walked. *)
Lemma fallbackFS_Walk_returns pre b rest root f w w1 e w2 :
  walks_continue pre root f w = Some w1 ->
  Walk b root f w1 = (Some e, w2) ->
  continues root e = false ->
  fallbackFS_Walk (pre ++ b :: rest) root f w = (Some e, w2).
Proof.
  intros Hpre Hb He. rewrite (fallbackFS_Walk_app pre _ root f w w1 Hpre).
  simpl. now rewrite Hb, He.
Qed.

(** C1, on the code: a backend whose walk fails with a not-found path
    error is passed over whatever the path of the error is, the root or
    not, and the chain goes on with the next backend. *)
Theorem fallbackFS_Walk_passes_over_any_not_found b rest root f w e w1 :
  Walk b root f w = (Some e, w1) ->
  IsNotExist e = true ->
  fallbackFS_Walk (b :: rest) root f w = fallbackFS_Walk rest root f w1.
Proof.
  intros Hb He. simpl. rewrite Hb. unfold continues. now rewrite He.
Qed.

(** A chain all of whose backends fail with an error after which the
    chain goes on returns nil. *)
Lemma fallbackFS_Walk_all_continue fs root f w w1 :
  walks_continue fs root f w = Some w1 ->
  fallbackFS_Walk fs root f w = (None, w1).
Proof.
  intros H.
  rewrite <- (app_nil_r fs).
  now rewrite (fallbackFS_Walk_app fs [] root f w w1 H).
Qed.

End FallbackWalk.

Lemma fallbackFS_Walk_passes_over_any_not_found_witness :
  fallbackFS_Walk [vanished; healthy] "dir" logger []
  = (None, ["dir"; "dir/a.txt"; "dir/b.txt"; "dir"; "dir/a.txt"; "dir/b.txt"]).
Proof.
  rewrite (fallbackFS_Walk_passes_over_any_not_found
             (list string) unit unit vanished [healthy] "dir" logger []
             (PathError "lstat" "dir/b.txt" (Errno ENOENT))
             ["dir"; "dir/a.txt"; "dir/b.txt"]).
  - reflexivity.
  - reflexivity.
  - reflexivity.
Defined.

(** An error of [dir.Open] is the result of [dir.Walk], and the visitor is
    not called. *)
Lemma dir_Walk_error (W : Type) (d : dir) (path : string) x e
    (fn : WalkFunc W node) (w : W) :
  dir_Open d path = (x, Some e) -> dir_Walk d path fn w = (Some e, w).
Proof.
  intros H. unfold dir_Walk. rewrite H. now destruct x as [[?|?]|].
Qed.

(** A chain of memory trees none of which has the root goes on through
    all of them and never calls the visitor. *)
Lemma walks_continue_missing (W : Type) (ds : list dir) (root : string)
    (fn : WalkFunc W node) (w : W) :
  (forall d, In d ds -> snd (dir_Open d root) <> None) ->
  walks_continue (map dirFS ds) root fn w = Some w.
Proof.
  induction ds as [|d ds IH]; intros H; [reflexivity|].
  cbn [map walks_continue Walk dirFS].
  pose proof (H d (or_introl eq_refl)) as Hd.
  pose proof (dir_Open_error_IsNotExist d root) as He.
  destruct (dir_Open d root) as [x [e|]] eqn:E; [|now contradiction Hd].
  rewrite (dir_Walk_error W d root x e fn w E).
  unfold continues. rewrite (He e eq_refl).
  apply IH. intros d' Hin. apply H. now right.
Qed.

(** C10: the walk of an empty chain returns nil, and so does the walk of
    a chain all of whose backends fail with an error after which the chain
    goes on; for a chain of memory trees none of which has the root the
    world is then what it was, so that the visitor has not been called. *)
Theorem fallbackFS_Walk_nil_without_success :
  (forall W File FileInfo root (f : WalkFunc W FileInfo) w,
      fallbackFS_Walk (@nil (FileSystem W File FileInfo)) root f w = (None, w))
  /\ (forall W File FileInfo (fs : fallbackFS W File FileInfo) root f w w1,
        walks_continue fs root f w = Some w1 ->
        fallbackFS_Walk fs root f w = (None, w1))
  /\ (forall W (ds : list dir) root (fn : WalkFunc W node) w,
        (forall d, In d ds -> snd (dir_Open d root) <> None) ->
        fallbackFS_Walk (map dirFS ds) root fn w = (None, w)).
Proof.
  split; [reflexivity|split].
  - intros. now apply fallbackFS_Walk_all_continue.
  - intros W ds root fn w H. apply fallbackFS_Walk_all_continue.
    now apply walks_continue_missing.
Qed.

Lemma fallbackFS_Walk_nil_without_success_witness :
  fallbackFS_Walk [vanished; vanished] "dir" logger []
  = (None, ["dir"; "dir/a.txt"; "dir/b.txt"; "dir"; "dir/a.txt"; "dir/b.txt"])
  /\ fallbackFS_Walk (map dirFS [emptyRoot; sampleTree]) "missing"
       (recorder false) []
     = (None, []).
Proof.
  split.
  - apply (proj1 (proj2 fallbackFS_Walk_nil_without_success) _ _ _
             [vanished; vanished] "dir" logger []).
    reflexivity.
  - apply (proj2 (proj2 fallbackFS_Walk_nil_without_success) _
             [emptyRoot; sampleTree] "missing" (recorder false) []).
    intros d [<-|[<-|[]]]; discriminate.
Defined.

(** ** What the visitor returns *)

Lemma dir_walk_unfold (W : Type) (d : dir) (p : string) (fn : WalkFunc W node) (w : W) :
  dir_walk d p fn w
  = (None,
     fold_left (fun w kv => snd (dir_walk (snd kv) (Join [p; fst kv]) fn w))
       (dir_dirs d)
       (fold_left
          (fun w kv =>
             snd (fn (Join [p; fst kv]) (option_map NFile (dir_file d (fst kv))) None w))
          (dir_files d)
          (snd (fn p (Some (NDir d)) None w)))).
Proof.
  destruct d as [name files dirs].
  cbn [dir_walk dir_dirs dir_files]. f_equal.
  generalize (fold_left
       (fun w0 kv =>
        snd (fn (Join [p; fst kv])
             (option_map NFile (dir_file (mkDir name files dirs) (fst kv))) None w0))
       files (snd (fn p (Some (NDir (mkDir name files dirs))) None w))).
  induction dirs as [|[n dd] m IH]; intros w1; [reflexivity|].
  cbn [fold_left fst snd]. apply IH.
Qed.

Lemma visits_unfold (d : dir) (p : string) :
  visits d p
  = (p, Some (NDir d))
      :: map (fun kv => (Join [p; fst kv], option_map NFile (dir_file d (fst kv))))
             (dir_files d)
      ++ flat_map (fun kv => visits (snd kv) (Join [p; fst kv])) (dir_dirs d).
Proof.
  destruct d as [name files dirs].
  cbn [visits dir_dirs dir_files]. do 2 f_equal.
  induction dirs as [|[n dd] m IH]; [reflexivity|].
  cbn [flat_map fst snd]. now rewrite IH.
Qed.

Section WalkCalls.

Variable W : Type.
Variable fn : WalkFunc W node.

Lemma fold_files_calls (d : dir) (p : string) (m : list (string * file)) (w : W) :
  fold_left
    (fun w kv =>
       snd (fn (Join [p; fst kv]) (option_map NFile (dir_file d (fst kv))) None w))
    m w
  = fold_left (call fn)
      (map (fun kv => (Join [p; fst kv], option_map NFile (dir_file d (fst kv)))) m)
      w.
Proof.
  revert w. induction m as [|kv m IH]; intros w; [reflexivity|].
  cbn [fold_left map]. rewrite <- IH. reflexivity.
Qed.

(** The walk of a directory is the visitor called on every entry of
    [visits], one after the other, and the result nil. *)
Lemma dir_walk_visits (d : dir) :
  forall p w, dir_walk d p fn w = (None, fold_left (call fn) (visits d p) w).
Proof.
  induction d as [name files dirs IH] using dir_ind. intros p w.
  rewrite dir_walk_unfold, visits_unfold. f_equal.
  cbn [fold_left dir_dirs dir_files].
  rewrite fold_left_app, <- fold_files_calls.
  change (call fn w (p, Some (NDir (mkDir name files dirs))))
    with (snd (fn p (Some (NDir (mkDir name files dirs))) None w)).
  generalize (fold_left
     (fun w0 kv =>
      snd (fn (Join [p; fst kv])
           (option_map NFile (dir_file (mkDir name files dirs) (fst kv))) None w0))
     files (snd (fn p (Some (NDir (mkDir name files dirs))) None w))).
  induction IH as [|[n dd] m Hdd _ IHm]; intros w1; [reflexivity|].
  cbn [fold_left flat_map fst snd] in *.
  rewrite Hdd, fold_left_app. apply IHm.
Qed.

End WalkCalls.

Lemma fold_recorder (stop : bool) l log :
  fold_left (call (recorder stop)) l log = log ++ l.
Proof.
  revert log. induction l as [|[p x] l IH]; intros log; cbn [fold_left].
  - now rewrite app_nil_r.
  - rewrite IH. unfold call, recorder. cbn [fst snd]. now rewrite <- app_assoc.
Qed.

(** C2, as the code has it.  On the memory tree what the visitor returns
    is dropped: the walk calls it on every entry of the tree and returns
    nil.  The subtree view returns what the walk of its backend returns.
    The fallback chain returns the error of a backend as it is, and the
    world as that backend left it, when the error is not one after which
    it goes on. *)
Theorem visitor_error_propagation :
  (forall W d root x (fn : WalkFunc W node) w,
      dir_Open d root = (Some (NDir x), None) ->
      dir_Walk d root fn w = (None, fold_left (call fn) (visits x root) w))
  /\ (forall W File FileInfo (F : FileSystem W File FileInfo) p root v w,
        Walk (Subdir F p) root v w = Walk F (Join [p; root]) v w)
  /\ (forall W File FileInfo (pre rest : fallbackFS W File FileInfo) b root f w w1 e w2,
        walks_continue pre root f w = Some w1 ->
        Walk b root f w1 = (Some e, w2) ->
        continues root e = false ->
        fallbackFS_Walk (pre ++ b :: rest) root f w = (Some e, w2)).
Proof.
  split; [|split].
  - intros W d root x fn w H. unfold dir_Walk. rewrite H. apply dir_walk_visits.
  - reflexivity.
  - intros. eapply fallbackFS_Walk_returns; eassumption.
Qed.

Lemma visitor_error_propagation_witness :
  dir_Walk sampleTree "." (recorder true) []
  = (None, fold_left (call (recorder true)) (visits sampleTree ".") [])
  /\ fallbackFS_Walk ([] ++ [healthy; healthy]) "dir" stopper []
     = (Some (ErrorString "stop"), ["dir"]).
Proof.
  split.
  - apply (proj1 visitor_error_propagation _ sampleTree "." sampleTree
             (recorder true) []).
    reflexivity.
  - apply (proj2 (proj2 visitor_error_propagation) _ _ _
             [] [healthy] healthy "dir" stopper [] []);
      reflexivity.
Defined.

(** C2, as stated, fails on the memory tree: a visitor that returns an
    error at every call is still called on all four entries of the sample
    tree, and the walk returns nil. *)
Lemma dir_Walk_ignores_visitor_error :
  fst (recorder true "." (Some (NDir sampleTree)) None []) = Some (ErrorString "stop")
  /\ fst (dir_Walk sampleTree "." (recorder true) []) = None
  /\ map fst (snd (dir_Walk sampleTree "." (recorder true) []))
     = ["."; "x"; "dir"; "dir/a.txt"].
Proof. repeat split. Qed.

(** ** Registered content *)

Lemma stored_nothing name comps : stored (mkDir name [] []) comps = None.
Proof. destruct comps as [|c [|c' rest]]; reflexivity. Qed.

Lemma stored_cons d c c' rest :
  stored d (c :: c' :: rest)
  = match lookup c (dir_dirs d) with
    | Some dd => stored dd (c' :: rest)
    | None => None
    end.
Proof. reflexivity. Qed.

Lemma register_loop_cons d c c' rest t C :
  register_loop d (c :: c' :: rest) t C
  = mkDir (dir_name d) (dir_files d)
      (assign c
         (register_loop
            match lookup c (dir_dirs d) with
            | Some dd => dd
            | None => mkDir c [] []
            end (c' :: rest) t C)
         (dir_dirs d)).
Proof. reflexivity. Qed.

(** A registration stores its record at its components. *)
Lemma stored_register_same comps :
  comps <> [] ->
  forall d t C, exists name,
    stored (register_loop d comps t C) comps = Some (mkFile name t C None).
Proof.
  induction comps as [|c rest IH]; [congruence|]. intros _ d t C.
  destruct rest as [|c' rest].
  - exists c. simpl. apply lookup_assign_same.
  - rewrite register_loop_cons, stored_cons. cbn [dir_dirs].
    rewrite lookup_assign_same. apply IH. discriminate.
Qed.

(** A registration leaves what is stored at other components alone. *)
Lemma stored_register_other comps :
  forall comps' d t C,
    comps <> comps' ->
    stored (register_loop d comps' t C) comps = stored d comps.
Proof.
  induction comps as [|c rest IH]; intros comps' d t C Hne.
  - destruct comps' as [|c1 [|c2 r]]; reflexivity.
  - destruct comps' as [|c1 rest']; [reflexivity|].
    destruct rest as [|c' rest], rest' as [|c1' rest'].
    + simpl. apply lookup_assign_other. congruence.
    + reflexivity.
    + reflexivity.
    + rewrite register_loop_cons, !stored_cons. cbn [dir_dirs].
      destruct (String.eqb_spec c1 c) as [->|Hc].
      * rewrite lookup_assign_same.
        rewrite IH by congruence.
        destruct (lookup c (dir_dirs d)); [reflexivity|apply stored_nothing].
      * now rewrite lookup_assign_other.
Qed.

Lemma Registered_stored d P C :
  Registered d P C ->
  exists f, stored d (Split (normalize P)) = Some f /\ file_data f = C.
Proof.
  induction 1 as [d P t C|d P C Q t C' _ [f [Hf HC]] Hne].
  - destruct (stored_register_same (Split (normalize P)) (Split_not_nil _) d t C)
      as [name Hs].
    exists (mkFile name t C None). now split.
  - exists f. split; [|exact HC].
    unfold RegisterFile. rewrite stored_register_other; [exact Hf|].
    intros E. apply Hne. symmetry. now apply Split_inj.
Qed.

(** [dir.Open] finds what is stored and hands out a fresh reader on it. *)
Lemma open_loop_stored comps :
  forall d p f,
    stored d comps = Some f ->
    open_loop d comps p
    = (Some (NFile (mkFile (file_name f) (file_mod f) []
                      (Some (NewReader (file_data f))))), None).
Proof.
  induction comps as [|c rest IH]; intros d p f H; [discriminate|].
  destruct rest as [|c' rest].
  - simpl in *. unfold dir_file. now rewrite H.
  - rewrite stored_cons in H.
    change (open_loop d (c :: c' :: rest) p)
      with (match lookup c (dir_dirs d) with
            | Some dd => open_loop dd (c' :: rest) p
            | None => notExist p
            end).
    destruct (lookup c (dir_dirs d)); [now apply IH|discriminate].
Qed.

(** ** Reading to the end *)

Lemma firstn_skipn_length {A : Type} (n : nat) (l : list A) :
  firstn n l ++ skipn (List.length (firstn n l)) l = l.
Proof.
  rewrite length_firstn.
  destruct (Nat.le_ge_cases n (List.length l)) as [H|H].
  - rewrite Nat.min_l by exact H. apply firstn_skipn.
  - rewrite Nat.min_r by exact H.
    rewrite firstn_all2 by exact H. rewrite skipn_all. apply app_nil_r.
Qed.

(** With a buffer that is not empty and enough calls, reading a handle to
    the end returns the bytes from the offset of its reader on. *)
Lemma read_to_end_from fuel :
  forall name t data bytes (k : nat) n,
    (0 < n)%nat ->
    (k <= List.length bytes)%nat ->
    (List.length bytes - k < fuel)%nat ->
    read_to_end fuel (mkFile name t data (Some (mkReader bytes (Z.of_nat k)))) n
    = Some (skipn k bytes).
Proof.
  induction fuel as [|fuel IH]; intros name t data bytes k n Hn Hk Hfuel; [lia|].
  cbn [read_to_end file_Read file_Reader file_name file_mod file_data].
  unfold Reader_Read. cbn [s i].
  destruct (Z.of_nat k >=? Z.of_nat (List.length bytes))%Z eqn:E.
  - assert (k = List.length bytes) by lia. subst k.
    now rewrite skipn_all.
  - rewrite Nat2Z.id.
    set (b := firstn n (skipn k bytes)).
    assert (Hb : List.length b = Nat.min n (List.length bytes - k)).
    { unfold b. now rewrite length_firstn, length_skipn. }
    replace (Z.of_nat k + Z.of_nat (List.length b))%Z
      with (Z.of_nat (k + List.length b)) by lia.
    rewrite IH by lia.
    cbn [option_map]. f_equal.
    rewrite Nat.add_comm, <- skipn_skipn.
    apply firstn_skipn_length.
Qed.

(** C3, as the spec's registration and the code's [Open] have it: a path
    registered with content [C] whose normal form is not empty, [.] or
    [..] opens without error as a file handle; read to the end with any
    buffer that is not empty the handle yields exactly [C], and the file
    information it gives for itself has the length of [C] as its size. *)
Theorem Registered_Open_reads_content d P C :
  Registered d P C ->
  unsplit (normalize P) = false ->
  exists f,
    dir_Open d P = (Some (NFile f), None)
    /\ (forall n fuel,
          (0 < n)%nat -> (List.length C < fuel)%nat ->
          read_to_end fuel f n = Some C)
    /\ node_Stat (NFile f) = (Some (NFile f), None)
    /\ node_Size (NFile f) = Some (Z.of_nat (List.length C)).
Proof.
  intros HR Hu.
  destruct (Registered_stored d P C HR) as [f [Hf HC]].
  exists (mkFile (file_name f) (file_mod f) [] (Some (NewReader (file_data f)))).
  split; [|split; [|split]].
  - unfold dir_Open. unfold unsplit in Hu.
    destruct (normalize P =? "") eqn:E1; [discriminate|].
    destruct (normalize P =? "..") eqn:E2; [discriminate|].
    destruct (normalize P =? ".") eqn:E3; [discriminate|].
    cbn [orb]. now apply open_loop_stored.
  - intros n fuel Hn Hfuel. rewrite HC. unfold NewReader.
    change 0%Z with (Z.of_nat 0).
    rewrite read_to_end_from by (simpl; lia). reflexivity.
  - reflexivity.
  - rewrite HC. reflexivity.
Qed.

Lemma Registered_Open_reads_content_witness :
  exists f,
    dir_Open sampleTree "dir/a.txt" = (Some (NFile f), None)
    /\ (forall n fuel,
          (0 < n)%nat -> (List.length [x00; xff] < fuel)%nat ->
          read_to_end fuel f n = Some [x00; xff])
    /\ node_Stat (NFile f) = (Some (NFile f), None)
    /\ node_Size (NFile f) = Some (Z.of_nat (List.length [x00; xff])).
Proof.
  apply (Registered_Open_reads_content sampleTree "dir/a.txt" [x00; xff]).
  - apply Registered_last.
  - reflexivity.
Defined.

(** C3, as stated, fails for the path [.]: it can be registered, and
    opening it gives the root directory, which is no file handle, cannot
    be read and has size 0, not the registered byte. *)
Lemma Registered_dot_opens_directory :
  let d := RegisterFile emptyRoot "." 0 [x41] in
  Registered d "." [x41]
  /\ dir_Open d "." = (Some (NDir d), None)
  /\ ~ (exists f, dir_Open d "." = (Some (NFile f), None))
  /\ dir_Read d 1 = ([], Some (PathError "read" "" errIsDirectory))
  /\ node_Size (NDir d) <> Some (Z.of_nat (List.length [x41])).
Proof.
  cbv zeta. repeat split.
  - apply Registered_last.
  - intros [f H]. discriminate H.
  - discriminate.
Qed.

(** ** The order of a walk *)

Lemma addrs_unfold (d : dir) :
  addrs d
  = ([], KDir)
      :: map (fun kv => ([fst kv], KFile)) (dir_files d)
      ++ flat_map (fun kv => map (under (fst kv)) (addrs (snd kv))) (dir_dirs d).
Proof.
  destruct d as [name files dirs].
  cbn [addrs dir_dirs dir_files]. do 2 f_equal.
  induction dirs as [|[n dd] m IH]; [reflexivity|].
  cbn [flat_map fst snd]. now rewrite IH.
Qed.

Lemma wf_unfold (d : dir) :
  wf d
  = distinct (map fst (dir_files d))
    && distinct (map fst (dir_dirs d))
    && forallb (fun kv => wf (snd kv)) (dir_dirs d).
Proof.
  destruct d as [name files dirs].
  cbn [wf dir_dirs dir_files]. f_equal.
  induction dirs as [|[n dd] m IH]; [reflexivity|].
  cbn [forallb snd]. now rewrite IH.
Qed.

Lemma wf_parts (d : dir) :
  wf d = true ->
  distinct (map fst (dir_files d)) = true
  /\ distinct (map fst (dir_dirs d)) = true
  /\ (forall kv, In kv (dir_dirs d) -> wf (snd kv) = true).
Proof.
  rewrite wf_unfold. intros H.
  apply andb_prop in H. destruct H as [H H3].
  apply andb_prop in H. destruct H as [H1 H2].
  repeat split; try assumption.
  rewrite forallb_forall in H3. exact H3.
Qed.

Lemma distinct_NoDup l : distinct l = true -> NoDup l.
Proof.
  induction l as [|x l IH]; intros H; [constructor|].
  simpl in H. apply andb_prop in H. destruct H as [Hx Hl].
  constructor; [|now apply IH].
  intros Hin. apply negb_true_iff in Hx.
  assert (existsb (String.eqb x) l = true) as E.
  { apply existsb_exists. exists x. split; [exact Hin|apply String.eqb_refl]. }
  congruence.
Qed.

Lemma lookup_Some_In {A : Type} (k : string) (v : A) m :
  lookup k m = Some v -> In (k, v) m.
Proof.
  induction m as [|[k' v'] m IH]; [discriminate|]. simpl.
  destruct (String.eqb_spec k' k) as [->|Hne].
  - intros [= ->]. now left.
  - intros H. right. now apply IH.
Qed.

Lemma lookup_In_keys {A : Type} (k : string) (m : list (string * A)) :
  lookup k m <> None <-> In k (map fst m).
Proof.
  induction m as [|[k' v'] m IH]; simpl.
  - split; [congruence|tauto].
  - destruct (String.eqb_spec k' k) as [->|Hne].
    + split; [now left|discriminate].
    + rewrite IH. split; [now right|]. intros [H|H]; [contradiction|exact H].
Qed.

Lemma lookup_distinct {A : Type} (k : string) (v : A) m :
  distinct (map fst m) = true -> In (k, v) m -> lookup k m = Some v.
Proof.
  intros Hd. apply distinct_NoDup in Hd.
  induction m as [|[k' v'] m IH]; [contradiction|].
  simpl in *. inversion Hd as [|? ? Hnotin Hd']; subst.
  intros [[= -> ->]|Hin].
  - now rewrite String.eqb_refl.
  - destruct (String.eqb_spec k' k) as [->|Hne]; [|now apply IH].
    exfalso. apply Hnotin. apply in_map_iff. now exists (k, v).
Qed.

Lemma map_flat_map {A B C : Type} (g : B -> C) (f : A -> list B) l :
  map g (flat_map f l) = flat_map (fun x => map g (f x)) l.
Proof.
  induction l as [|x l IH]; [reflexivity|].
  simpl. now rewrite map_app, IH.
Qed.

Lemma flat_map_ext_in {A B : Type} (f g : A -> list B) l :
  (forall x, In x l -> f x = g x) -> flat_map f l = flat_map g l.
Proof.
  induction l as [|x l IH]; intros H; [reflexivity|].
  simpl. rewrite (H x) by now left.
  rewrite IH; [reflexivity|]. intros y Hy. apply H. now right.
Qed.

(** An address without names is the directory itself. *)
Lemma addrs_no_names d k : In ([], k) (addrs d) -> k = KDir.
Proof.
  rewrite addrs_unfold. intros [H|H].
  - now injection H.
  - apply in_app_or in H. destruct H as [H|H].
    + apply in_map_iff in H. destruct H as [kv [H _]]. discriminate.
    + apply in_flat_map in H. destruct H as [kv [_ H]].
      apply in_map_iff in H. destruct H as [a [H _]]. discriminate.
Qed.

Lemma entry_under d p n dd a :
  lookup n (dir_dirs d) = Some dd ->
  a <> ([], KFile) ->
  entry d p (under n a) = entry dd (Join [p; n]) a.
Proof.
  intros Hl Ha. destruct a as [names k].
  unfold entry, under. cbn [fst snd path_at fold_left]. f_equal.
  cbn [node_at]. rewrite Hl.
  destruct names as [|n' names]; [|reflexivity].
  destruct k; [congruence|reflexivity].
Qed.

(** What a walk hands to the visitor is, address by address, the member
    of the tree at the address under the path joined from the names. *)
Lemma visits_addrs (d : dir) :
  forall p, wf d = true -> visits d p = map (entry d p) (addrs d).
Proof.
  induction d as [name files dirs IH] using dir_ind. intros p Hwf.
  rewrite visits_unfold, addrs_unfold.
  cbn [map]. f_equal.
  rewrite map_app, map_map, map_flat_map. f_equal.
  destruct (wf_parts _ Hwf) as [_ [Hd Hsub]].
  cbn [dir_dirs dir_files] in *.
  rewrite Forall_forall in IH.
  apply flat_map_ext_in. intros [n dd] Hin. cbn [fst snd].
  rewrite (IH _ Hin _ (Hsub _ Hin)). cbn [snd].
  rewrite map_map. apply map_ext_in. intros a Ha.
  symmetry. apply entry_under.
  - now apply lookup_distinct.
  - intros ->. apply addrs_no_names in Ha. discriminate.
Qed.

(** The addresses below the root: a file of the directory, or an address
    of a subdirectory under its name. *)
Lemma In_addrs_cons d n rest k :
  In (n :: rest, k) (addrs d)
  <-> (rest = [] /\ k = KFile /\ In n (map fst (dir_files d)))
      \/ (exists dd, In (n, dd) (dir_dirs d) /\ In (rest, k) (addrs dd)).
Proof.
  rewrite addrs_unfold. split.
  - intros [H|H]; [discriminate|].
    apply in_app_or in H. destruct H as [H|H].
    + left. apply in_map_iff in H. destruct H as [kv [[= <- <- <-] Hin]].
      repeat split. now apply in_map.
    + right. apply in_flat_map in H. destruct H as [[n' dd] [Hin H]].
      apply in_map_iff in H. destruct H as [[names k'] [[= <- <- <-] Ha]].
      now exists dd.
  - intros [[-> [-> H]]|[dd [Hin Ha]]]; right; apply in_or_app.
    + left. apply in_map_iff in H. destruct H as [kv [<- Hkv]].
      apply in_map_iff. now exists kv.
    + right. apply in_flat_map. exists (n, dd). split; [exact Hin|].
      apply in_map_iff. now exists (rest, k).
Qed.

(** Every member of the tree has its address in the list, and the list
    has nothing else. *)
Lemma addrs_node_at (d : dir) :
  wf d = true ->
  forall names k, node_at d names k <> None <-> In (names, k) (addrs d).
Proof.
  induction d as [name files dirs IH] using dir_ind. intros Hwf names k.
  destruct (wf_parts _ Hwf) as [_ [Hd Hsub]].
  rewrite Forall_forall in IH. cbn [dir_dirs dir_files] in *.
  destruct names as [|n rest].
  - destruct k; cbn [node_at].
    + split; [congruence|]. intros H. apply addrs_no_names in H. discriminate.
    + split; [|discriminate]. intros _. rewrite addrs_unfold. now left.
  - rewrite In_addrs_cons. cbn [dir_dirs dir_files].
    assert (Hdirs :
      match lookup n dirs with
      | Some dd => node_at dd rest k
      | None => None
      end <> None
      <-> exists dd, In (n, dd) dirs /\ In (rest, k) (addrs dd)).
    { split.
      - destruct (lookup n dirs) as [dd|] eqn:E; [|congruence].
        intros H. exists dd. apply lookup_Some_In in E. split; [exact E|].
        now apply (IH _ E (Hsub _ E)).
      - intros [dd [Hin Ha]]. rewrite (lookup_distinct n dd dirs Hd Hin).
        now apply (IH _ Hin (Hsub _ Hin)). }
    destruct rest as [|n' rest]; [destruct k|].
    + cbn [node_at]. unfold dir_file. cbn [dir_files].
      rewrite <- (lookup_In_keys n files).
      split.
      * intros H. left. repeat split.
        destruct (lookup n files); [discriminate|]. now contradiction H.
      * intros [[_ [_ H]]|[dd [_ Ha]]].
        -- destruct (lookup n files); [discriminate|]. now contradiction H.
        -- apply addrs_no_names in Ha. discriminate.
    + cbn [node_at dir_dirs]. rewrite Hdirs.
      split; [now right|]. intros [[_ [H _]]|H]; [discriminate|exact H].
    + cbn [node_at dir_dirs]. rewrite Hdirs.
      split; [now right|]. intros [[H _]|H]; [discriminate|exact H].
Qed.

Lemma NoDup_map_injective {A B : Type} (f : A -> B) l :
  (forall x y, f x = f y -> x = y) -> NoDup l -> NoDup (map f l).
Proof.
  intros Hinj. induction 1 as [|x l Hx Hl IH]; [constructor|].
  simpl. constructor; [|exact IH].
  intros Hin. apply in_map_iff in Hin. destruct Hin as [y [Hy Hin]].
  apply Hinj in Hy. now subst y.
Qed.

Lemma NoDup_below (m : list (string * dir)) :
  NoDup (map fst m) ->
  (forall kv, In kv m -> NoDup (addrs (snd kv))) ->
  NoDup (flat_map (fun kv => map (under (fst kv)) (addrs (snd kv))) m).
Proof.
  induction m as [|[n dd] m IH]; intros Hk Hsub; [constructor|].
  cbn [flat_map fst snd map] in *. inversion Hk as [|? ? Hn Hk']; subst.
  apply NoDup_app.
  - apply NoDup_map_injective; [|apply (Hsub (n, dd)); now left].
    intros [x kx] [y ky]. unfold under. cbn [fst snd]. now intros [= -> ->].
  - apply IH; [exact Hk'|]. intros kv Hin. apply Hsub. now right.
  - intros a Ha Hb. apply in_map_iff in Ha. destruct Ha as [[x kx] [<- _]].
    apply in_flat_map in Hb. destruct Hb as [[n' dd'] [Hin Hb]].
    apply in_map_iff in Hb. destruct Hb as [[y ky] [[= -> _ _] _]].
    apply Hn. apply in_map_iff. now exists (n, dd').
Qed.

(** No address is listed twice. *)
Lemma NoDup_addrs (d : dir) : wf d = true -> NoDup (addrs d).
Proof.
  induction d as [name files dirs IH] using dir_ind. intros Hwf.
  destruct (wf_parts _ Hwf) as [Hf [Hd Hsub]].
  rewrite Forall_forall in IH. cbn [dir_dirs dir_files] in *.
  rewrite addrs_unfold. cbn [dir_dirs dir_files].
  constructor.
  - intros H. apply in_app_or in H. destruct H as [H|H].
    + apply in_map_iff in H. destruct H as [kv [H _]]. discriminate.
    + apply in_flat_map in H. destruct H as [kv [_ H]].
      apply in_map_iff in H. destruct H as [a [H _]]. discriminate.
  - apply NoDup_app.
    + rewrite <- (map_map fst (fun n => ([n], KFile))).
      apply NoDup_map_injective; [now intros x y [= ->]|].
      now apply distinct_NoDup.
    + apply NoDup_below; [now apply distinct_NoDup|].
      intros kv Hin. apply (IH _ Hin). now apply Hsub.
    + intros a Ha Hb.
      apply in_map_iff in Ha. destruct Ha as [kv [<- _]].
      apply in_flat_map in Hb. destruct Hb as [[n dd] [Hin Hb]].
      apply in_map_iff in Hb. destruct Hb as [[names k] [[= _ -> ->] Hb]].
      apply addrs_no_names in Hb. discriminate.
Qed.

Lemma before_map {A B : Type} (f : A -> B) x y l :
  before x y l -> before (f x) (f y) (map f l).
Proof.
  intros [l1 [l2 [l3 ->]]]. exists (map f l1), (map f l2), (map f l3).
  now rewrite map_app, map_cons, map_app, map_cons.
Qed.

Lemma before_middle {A : Type} (x y : A) pre l post :
  before x y l -> before x y (pre ++ l ++ post).
Proof.
  intros [l1 [l2 [l3 ->]]]. exists (pre ++ l1), l2, (l3 ++ post).
  rewrite <- !app_assoc. cbn [app]. rewrite <- !app_assoc. reflexivity.
Qed.

(** Every directory on the way to a listed address is listed before it. *)
Lemma before_addrs (d : dir) :
  forall a n b k,
    In (a ++ n :: b, k) (addrs d) ->
    before (a, KDir) (a ++ n :: b, k) (addrs d).
Proof.
  induction d as [name files dirs IH] using dir_ind. intros a n b k Hin.
  rewrite Forall_forall in IH.
  destruct a as [|n0 a].
  - cbn [app] in *. rewrite addrs_unfold in *.
    destruct Hin as [H|H]; [discriminate|].
    destruct (in_split _ _ H) as [l2 [l3 E]]. rewrite E.
    now exists [], l2, l3.
  - cbn [app] in *. apply In_addrs_cons in Hin.
    destruct Hin as [[H _]|[dd [Hdd Ha]]].
    { destruct a; discriminate. }
    cbn [dir_dirs] in Hdd.
    pose proof (IH _ Hdd a n b k Ha) as Hb. cbn [snd] in Hb.
    apply (before_map (under n0)) in Hb. unfold under in Hb. cbn [fst snd] in Hb.
    destruct (in_split _ _ Hdd) as [m1 [m2 E]].
    rewrite addrs_unfold. cbn [dir_dirs dir_files]. rewrite E.
    rewrite flat_map_app. cbn [flat_map fst snd].
    rewrite app_assoc.
    apply (before_middle _ _
             (([], KDir)
                :: map (fun kv : string * file => ([fst kv], KFile)) files
                ++ flat_map (fun kv => map (under (fst kv)) (addrs (snd kv))) m1)).
    exact Hb.
Qed.

(** C5: for a tree as a Go map can hold it, the walk of a directory under
    the path [p] returns nil after calling the visitor, for any visitor,
    on the members at the addresses of [addrs], in that order, each under
    the path joined from its names.  The first address is the directory
    itself; the addresses are exactly those of the members of the tree and
    none occurs twice; and every directory on the way to a member comes
    before the member.  Nothing is said of the order of the entries of one
    map: the statement holds for every order the maps are listed in. *)
Theorem dir_walk_preorder_once (d : dir) (p : string) :
  wf d = true ->
  (forall W (fn : WalkFunc W node) w,
      dir_walk d p fn w
      = (None, fold_left (call fn) (map (entry d p) (addrs d)) w))
  /\ hd_error (addrs d) = Some ([], KDir)
  /\ (forall names k, node_at d names k <> None <-> In (names, k) (addrs d))
  /\ NoDup (addrs d)
  /\ (forall a n b k,
        In (a ++ n :: b, k) (addrs d) ->
        before (a, KDir) (a ++ n :: b, k) (addrs d)).
Proof.
  intros Hwf. repeat split.
  - intros W fn w. rewrite dir_walk_visits. now rewrite visits_addrs.
  - now rewrite addrs_unfold.
  - now apply addrs_node_at.
  - now apply addrs_node_at.
  - now apply NoDup_addrs.
  - apply before_addrs.
Qed.

Lemma dir_walk_preorder_once_witness :
  snd (dir_walk sampleTree "." (recorder false) [])
  = map (entry sampleTree ".")
      [([], KDir); (["x"], KFile); (["dir"], KDir); (["dir"; "a.txt"], KFile)]
  /\ NoDup (addrs sampleTree).
Proof.
  destruct (dir_walk_preorder_once sampleTree "." eq_refl)
    as [Hwalk [_ [_ [Hnodup _]]]].
  split; [|exact Hnodup].
  rewrite Hwalk. rewrite fold_recorder. reflexivity.
Defined.

(** * Further properties *)

(** ** The string encoder of command bindata *)

Lemma encode_byte_mem (b : byte) (st : list byte) :
  encode_byte memWriter b st = (None, st ++ encoded [b]).
Proof. destruct b; reflexivity. Qed.

Lemma encode_loop_mem (p : list byte) :
  forall st,
    encode_loop memWriter p st = (None, st ++ flat_map (fun b => encoded [b]) p).
Proof.
  induction p as [|b p IH]; intros st.
  - cbn [encode_loop flat_map]. now rewrite app_nil_r.
  - cbn [encode_loop flat_map]. rewrite encode_byte_mem, IH.
    now rewrite app_assoc.
Qed.

Lemma stringEncoder_Write_mem (p st : list byte) :
  stringEncoder_Write memWriter p st
  = ((Z.of_nat (List.length p), None), st ++ flat_map (fun b => encoded [b]) p).
Proof.
  unfold stringEncoder_Write. rewrite encode_loop_mem. reflexivity.
Qed.

Lemma encoded_flat_map (p : list byte) :
  encoded p = flat_map (fun b => encoded [b]) p.
Proof. unfold encoded at 1. now rewrite stringEncoder_Write_mem. Qed.

Lemma encoded_cons (b : byte) (p : list byte) :
  encoded (b :: p) = encoded [b] ++ encoded p.
Proof. now rewrite (encoded_flat_map (b :: p)), (encoded_flat_map p). Qed.

(** X17: writing a text in two calls gives the output of writing it in one:
    each call on the writer in memory returns the length of its argument
    and no error, and the bytes written by the two calls are those of one
    call on the whole. *)
Theorem stringEncoder_Write_chunks (p q st : list byte) :
  let '(r1, st1) := stringEncoder_Write memWriter p st in
  let '(r2, st2) := stringEncoder_Write memWriter q st1 in
  r1 = (Z.of_nat (List.length p), None)
  /\ r2 = (Z.of_nat (List.length q), None)
  /\ st2 = snd (stringEncoder_Write memWriter (p ++ q) st).
Proof.
  rewrite !stringEncoder_Write_mem. cbn [snd].
  repeat split. now rewrite flat_map_app, app_assoc.
Qed.

(** X15: the encoder writes printable ASCII only, whatever the input. *)
Theorem encoded_printable (p : list byte) :
  forallb printable (encoded p) = true.
Proof.
  induction p as [|b p IH]; [reflexivity|].
  rewrite encoded_cons, forallb_app, IH, andb_true_r.
  destruct b; reflexivity.
Qed.

Lemma unquote_encoded_byte (b : byte) (r : list byte) :
  unquote (encoded [b] ++ r) = option_map (cons b) (unquote r).
Proof. destruct b; reflexivity. Qed.

(** X14: read back as the body of a Go string literal, the output of the
    encoder is well-formed and denotes the input, byte for byte. *)
Theorem unquote_encoded (p : list byte) : unquote (encoded p) = Some p.
Proof.
  induction p as [|b p IH]; [reflexivity|].
  now rewrite encoded_cons, unquote_encoded_byte, IH.
Qed.

(** X16: the output has at least one byte and at most four for every byte of
    the input. *)
Theorem encoded_length (p : list byte) :
  (List.length p <= List.length (encoded p) <= 4 * List.length p)%nat.
Proof.
  induction p as [|b p IH]; [cbn; lia|].
  rewrite encoded_cons, length_app. cbn [List.length].
  assert (1 <= List.length (encoded [b]) <= 4)%nat by (destruct b; cbn; lia).
  lia.
Qed.

Lemma encode_loop_app (B : Type) (w : Writer B) (p1 p2 : list byte) :
  forall st st1,
    encode_loop w p1 st = (None, st1) ->
    encode_loop w (p1 ++ p2) st = encode_loop w p2 st1.
Proof.
  induction p1 as [|b p1 IH]; intros st st1 H.
  - cbn in H. now injection H as <-.
  - cbn [encode_loop app] in *.
    destruct (encode_byte w b st) as [[e|] st']; [discriminate|].
    now apply IH.
Qed.

(** X18: when the writer refuses a byte, after [p1] has been taken without
    error, [Write] returns 0 and that error at once: the bytes after it are
    not encoded, the writer is not flushed, and the count does not tell
    that [p1] was written. *)
Theorem stringEncoder_Write_error (B : Type) (w : Writer B)
    (p1 p2 : list byte) (b : byte) (st st1 st2 : B) (e : error) :
  encode_loop w p1 st = (None, st1) ->
  encode_byte w b st1 = (Some e, st2) ->
  stringEncoder_Write w (p1 ++ b :: p2) st = ((0%Z, Some e), st2).
Proof.
  intros H1 Hb. unfold stringEncoder_Write.
  rewrite (encode_loop_app B w p1 (b :: p2) st st1 H1).
  cbn [encode_loop]. now rewrite Hb.
Qed.

Lemma stringEncoder_Write_error_witness :
  stringEncoder_Write (limitedWriter 3) ([x41; x42] ++ x0a :: [x43]) []
  = ((0%Z, Some (Errno 28)), [x41; x42]).
Proof.
  apply (stringEncoder_Write_error _ (limitedWriter 3) [x41; x42] [x43] x0a
           [] [x41; x42] [x41; x42] (Errno 28)); reflexivity.
Defined.

(** ** The skip list of command bindata *)

(** X19: a name is skipped exactly when one of the patterns matches it; what
    [filepath.Match] reports as its error plays no part, and no pattern
    means no match. *)
Theorem matchList_iff (Match : string -> string -> bool * option error)
    (name : string) (patterns : list string) :
  matchList Match name patterns = true
  <-> exists pat, In pat patterns /\ fst (Match pat name) = true.
Proof.
  assert (H : forall l,
    (fix range (l : list string) : bool :=
       match l with
       | [] => false
       | pat :: l' => if fst (Match pat name) then true else range l'
       end) l = true
    <-> exists pat, In pat l /\ fst (Match pat name) = true).
  { induction l as [|pat l IH].
    - split; [discriminate|]. now intros [pat [[] _]].
    - destruct (fst (Match pat name)) eqn:E.
      + split; [|reflexivity]. intros _. exists pat. split; [now left|exact E].
      + rewrite IH. split.
        * intros [q [Hin Hq]]. exists q. split; [now right|exact Hq].
        * intros [q [[<-|Hin] Hq]]; [congruence|]. now exists q. }
  destruct patterns as [|pat l].
  - split; [discriminate|]. now intros [pat [[] _]].
  - apply (H (pat :: l)).
Qed.

(** ** The fallback chain, further *)

Section FallbackMore.

Variable W : Type.
Variables File FileInfo : Type.

Implicit Types (fs pre post rest a : fallbackFS W File FileInfo).

(** Where an error of the chain comes from. *)
Lemma fallbackFS_Walk_error_from fs root f :
  forall w e w',
    fallbackFS_Walk fs root f w = (Some e, w') ->
    continues root e = false
    /\ exists pre b rest w1,
         fs = pre ++ b :: rest
         /\ walks_continue pre root f w = Some w1
         /\ Walk b root f w1 = (Some e, w').
Proof.
  induction fs as [|b fs IH]; intros w e w' H; [discriminate|].
  cbn [fallbackFS_Walk] in H.
  destruct (Walk b root f w) as [[e0|] w0] eqn:Hb; [|discriminate].
  destruct (continues root e0) eqn:Hc.
  - destruct (IH _ _ _ H) as [He [pre [b' [rest [w1 [-> [Hpre Hb']]]]]]].
    split; [exact He|].
    exists (b :: pre), b', rest, w1. repeat split; [|exact Hb'].
    cbn [walks_continue]. now rewrite Hb, Hc.
  - injection H as <- <-. split; [exact Hc|].
    exists [], b, fs, w. now repeat split.
Qed.

(** X7: an error that [Walk] on a chain returns is never one after which the
    chain goes on, so never a not-found error: it is the error of the
    first backend that failed in another way, and the world is as that
    backend left it. *)
Theorem fallbackFS_Walk_error_origin fs root f w e w' :
  fallbackFS_Walk fs root f w = (Some e, w') ->
  continues root e = false
  /\ IsNotExist e = false
  /\ exists pre b rest w1,
       fs = pre ++ b :: rest
       /\ walks_continue pre root f w = Some w1
       /\ Walk b root f w1 = (Some e, w').
Proof.
  intros H. destruct (fallbackFS_Walk_error_from fs root f w e w' H) as [Hc Hex].
  repeat split; [exact Hc| |exact Hex].
  unfold continues in Hc. now destruct (IsNotExist e).
Qed.

(** X9: a chain put first in another chain hides what comes after it from
    [Walk]: the walk of the outer chain is the walk of the inner one. *)
Theorem fallbackFS_Walk_nested a rest root f w :
  fallbackFS_Walk (Fallback a :: rest) root f w = fallbackFS_Walk a root f w.
Proof.
  cbn [fallbackFS_Walk Walk Fallback].
  destruct (fallbackFS_Walk a root f w) as [[e|] w'] eqn:H; [|reflexivity].
  now rewrite (proj1 (fallbackFS_Walk_error_from a root f w e w' H)).
Qed.

Lemma fallbackFS_Open_loop_split a rest name :
  a <> [] ->
  forall f0 e0 w,
    fallbackFS_Open_loop (a ++ rest) name f0 e0 w
    = let '((f, err), w') := fallbackFS_Open_loop a name None None w in
      match err with
      | None => ((f, err), w')
      | Some _ => fallbackFS_Open_loop rest name f err w'
      end.
Proof.
  induction a as [|x a IH]; intros Hne f0 e0 w; [congruence|].
  cbn [app fallbackFS_Open_loop].
  destruct (Open x name w) as [[f [e|]] w']; [|reflexivity].
  destruct a as [|y a]; [reflexivity|].
  rewrite (IH ltac:(discriminate) f (Some e) w').
  cbn [fallbackFS_Open_loop].
  destruct (Open y name w') as [[f1 [e1|]] w1]; reflexivity.
Qed.

(** X11: for [Open], a chain that is not empty may be put first in another
    chain or written out in it: the results are the same. *)
Theorem fallbackFS_Open_nested a rest name w :
  a <> [] ->
  fallbackFS_Open (Fallback a :: rest) name w
  = fallbackFS_Open (a ++ rest) name w.
Proof.
  intros Hne. unfold fallbackFS_Open at 2.
  rewrite (fallbackFS_Open_loop_split a rest name Hne).
  unfold fallbackFS_Open. cbn [fallbackFS_Open_loop Open Fallback].
  unfold fallbackFS_Open.
  destruct (fallbackFS_Open_loop a name None None w) as [[f [e|]] w']; reflexivity.
Qed.

Lemma fallbackFS_Open_loop_cases fs name :
  forall f0 e0 w f err w',
    fallbackFS_Open_loop fs name f0 e0 w = ((f, err), w') ->
    (fs = [] /\ f = f0 /\ err = e0 /\ w' = w)
    \/ (exists e, err = Some e /\ fs <> [] /\ opens_fail fs name w = Some w')
    \/ (err = None
        /\ exists pre b post w1,
             fs = pre ++ b :: post
             /\ opens_fail pre name w = Some w1
             /\ Open b name w1 = ((f, None), w')).
Proof.
  induction fs as [|b fs IH]; intros f0 e0 w f err w' H.
  - left. cbn in H. now injection H as <- <- <-.
  - right. cbn [fallbackFS_Open_loop] in H.
    destruct (Open b name w) as [[f1 [e1|]] w1] eqn:Hb.
    + destruct (IH _ _ _ _ _ _ H) as [[-> [-> [-> ->]]]|[[e [-> [Hne Hall]]]|[-> Hex]]].
      * left. exists e1. repeat split; [discriminate|].
        cbn [opens_fail]. now rewrite Hb.
      * left. exists e. repeat split; [discriminate|].
        cbn [opens_fail]. now rewrite Hb.
      * right. split; [reflexivity|].
        destruct Hex as [pre [b' [post [w2 [-> [Hpre Hb']]]]]].
        exists (b :: pre), b', post, w2. repeat split; [|exact Hb'].
        cbn [opens_fail]. now rewrite Hb.
    + injection H as <- <- <-. right. split; [reflexivity|].
      exists [], b, fs, w. now repeat split.
Qed.

(** X10: what [Open] on a chain returns tells what happened: an error means
    that every backend was tried and failed; no error means that the
    chain is empty, with no handle either, or that some backend, after
    the failure of all before it, returned this very result. *)
Theorem fallbackFS_Open_cases fs name w f err w' :
  fallbackFS_Open fs name w = ((f, err), w') ->
  match err with
  | Some _ => fs <> [] /\ opens_fail fs name w = Some w'
  | None =>
      (fs = [] /\ f = None /\ w' = w)
      \/ exists pre b post w1,
           fs = pre ++ b :: post
           /\ opens_fail pre name w = Some w1
           /\ Open b name w1 = ((f, None), w')
  end.
Proof.
  intros H. unfold fallbackFS_Open in H.
  destruct (fallbackFS_Open_loop_cases fs name _ _ _ _ _ _ H)
    as [[-> [-> [-> ->]]]|[[e [-> [Hne Hall]]]|[-> Hex]]].
  - left. now repeat split.
  - now split.
  - now right.
Qed.

Lemma fallbackFS_Open_loop_Subdir fs p name :
  forall f0 e0 w,
    fallbackFS_Open_loop (map (fun F => Subdir F p) fs) name f0 e0 w
    = fallbackFS_Open_loop fs (Join [p; name]) f0 e0 w.
Proof.
  induction fs as [|b fs IH]; intros f0 e0 w; [reflexivity|].
  cbn [map fallbackFS_Open_loop Open Subdir]. unfold subdir_Open.
  cbn [subdir_fs subdir_path].
  destruct (Open b (Join [p; name]) w) as [[f [e|]] w']; [apply IH|reflexivity].
Qed.

(** X12: for [Open], the view at [p] of a chain is the chain of the views at
    [p] of its backends. *)
Theorem Subdir_Fallback_Open fs p name w :
  Open (Subdir (Fallback fs) p) name w
  = Open (Fallback (map (fun F => Subdir F p) fs)) name w.
Proof.
  cbn [Open Subdir Fallback]. unfold subdir_Open, fallbackFS_Open.
  cbn [subdir_fs subdir_path Open].
  symmetry. apply fallbackFS_Open_loop_Subdir.
Qed.

End FallbackMore.

Lemma fallbackFS_Walk_error_origin_witness :
  continues "dir" (ErrorString "stop") = false
  /\ IsNotExist (ErrorString "stop") = false
  /\ exists pre b rest w1,
       [vanished; healthy; healthy] = pre ++ b :: rest
       /\ walks_continue pre "dir" stopper [] = Some w1
       /\ Walk b "dir" stopper w1 = (Some (ErrorString "stop"), ["dir"]).
Proof.
  apply (fallbackFS_Walk_error_origin _ _ _ [vanished; healthy; healthy]
           "dir" stopper []).
  reflexivity.
Defined.

Lemma fallbackFS_Open_nested_witness :
  fallbackFS_Open [Fallback [dirFS emptyRoot; dirFS sampleTree]; dirFS emptyRoot]
    "x" tt
  = fallbackFS_Open ([dirFS emptyRoot; dirFS sampleTree] ++ [dirFS emptyRoot])
      "x" tt.
Proof.
  apply (fallbackFS_Open_nested unit node node
           [dirFS emptyRoot; dirFS sampleTree] [dirFS emptyRoot] "x" tt).
  discriminate.
Defined.

Lemma fallbackFS_Open_cases_witness :
  ([dirFS emptyRoot; dirFS emptyRoot] : fallbackFS unit node node) <> []
  /\ opens_fail [dirFS emptyRoot; dirFS emptyRoot] "x" tt = Some tt.
Proof.
  apply (fallbackFS_Open_cases unit node node
           [dirFS emptyRoot; dirFS emptyRoot] "x" tt
           None (Some (PathError "open" "x" ErrNotExist)) tt).
  reflexivity.
Defined.

(** ** Resolution of a path in the memory tree *)

(** [dir.Open] on components is the member at the address of the
    components: the file if there is one, the directory otherwise. *)
Lemma open_loop_node_at (names : list string) :
  names <> [] ->
  forall d p,
    open_loop d names p
    = match node_at d names KFile with
      | Some x => (Some x, None)
      | None =>
          match node_at d names KDir with
          | Some x => (Some x, None)
          | None => notExist p
          end
      end.
Proof.
  induction names as [|n rest IH]; [congruence|]. intros _ d p.
  destruct rest as [|n' rest].
  - cbn [open_loop node_at].
    destruct (dir_file d n); [reflexivity|]. cbn [option_map].
    destruct (lookup n (dir_dirs d)); reflexivity.
  - change (open_loop d (n :: n' :: rest) p)
      with (match lookup n (dir_dirs d) with
            | Some dd => open_loop dd (n' :: rest) p
            | None => notExist p
            end).
    cbn [node_at].
    destruct (lookup n (dir_dirs d)) as [dd|]; [|reflexivity].
    apply IH. discriminate.
Qed.

Lemma dir_Open_split (d : dir) (path : string) :
  unsplit (normalize path) = false ->
  dir_Open d path = open_loop d (Split (normalize path)) (normalize path).
Proof.
  unfold dir_Open, unsplit. intros H.
  destruct (normalize path =? "") eqn:E1; [discriminate|].
  destruct (normalize path =? "..") eqn:E2; [discriminate|].
  destruct (normalize path =? ".") eqn:E3; [discriminate|].
  reflexivity.
Qed.

(** X1: a path whose normal form is not empty, [.] or [..] opens as the file
    stored at its components if there is one, even when a directory has
    the same name; as the directory at its components otherwise; and fails
    when there is neither, with the normal form of the path in the
    error. *)
Theorem dir_Open_resolution (d : dir) (path : string) :
  unsplit (normalize path) = false ->
  dir_Open d path
  = match node_at d (Split (normalize path)) KFile with
    | Some x => (Some x, None)
    | None =>
        match node_at d (Split (normalize path)) KDir with
        | Some x => (Some x, None)
        | None => (None, Some (PathError "open" (normalize path) ErrNotExist))
        end
    end.
Proof.
  intros H. rewrite (dir_Open_split d path H).
  apply open_loop_node_at. apply Split_not_nil.
Qed.

Lemma dir_Open_resolution_witness :
  dir_Open sampleTree "/dir//a.txt"
  = (Some (NFile (mkFile "a.txt" 0 [] (Some (NewReader [x00; xff])))), None).
Proof.
  rewrite (dir_Open_resolution sampleTree "/dir//a.txt"); reflexivity.
Defined.

(** The two shapes of a result of [dir.Open]. *)
Lemma dir_Open_shape (d : dir) (path : string) :
  (exists x, dir_Open d path = (Some x, None))
  \/ dir_Open d path = notExist (normalize path).
Proof.
  destruct (unsplit (normalize path)) eqn:U.
  - unfold dir_Open. unfold unsplit in U.
    destruct ((normalize path =? "") || (normalize path =? "..")); [now right|].
    cbn [orb] in U. rewrite U. left. now exists (NDir d).
  - rewrite (dir_Open_split d path U).
    rewrite (open_loop_node_at _ (Split_not_nil _)).
    destruct (node_at d (Split (normalize path)) KFile) as [x|]; [left; now exists x|].
    destruct (node_at d (Split (normalize path)) KDir) as [x|]; [left; now exists x|].
    now right.
Qed.

(** X2: [dir.Open] returns a handle and no error, or no handle and the
    not-found path error of the normal form of the path: never both, never
    neither, never another error; the bare not-found error of the last
    line of the function is never returned. *)
Theorem dir_Open_handle_or_not_found (d : dir) (path : string) :
  (exists x, dir_Open d path = (Some x, None))
  \/ (dir_Open d path
      = (None, Some (PathError "open" (normalize path) ErrNotExist))
      /\ IsNotExist (PathError "open" (normalize path) ErrNotExist) = true).
Proof.
  destruct (dir_Open_shape d path) as [H|H]; [now left|right].
  now split.
Qed.

(** X3: when [dir.Walk] returns an error the visitor has not been called: the
    world is what it was; and the error is the not-found error of [Open]
    or the is-a-file error for the root as given. *)
Theorem dir_Walk_error_visits_nothing (W : Type) (d : dir) (root : string)
    (fn : WalkFunc W node) (w w' : W) (e : error) :
  dir_Walk d root fn w = (Some e, w') ->
  w' = w
  /\ (e = PathError "open" (normalize root) ErrNotExist
      \/ e = PathError "walk" root errIsFile).
Proof.
  intros H. destruct (dir_Open_shape d root) as [[x Hx]|Hx].
  - unfold dir_Walk in H. rewrite Hx in H. destruct x as [dd|f].
    + rewrite dir_walk_visits in H. discriminate.
    + injection H as <- <-. split; [reflexivity|now right].
  - rewrite (dir_Walk_error W d root None _ fn w Hx) in H.
    injection H as <- <-. split; [reflexivity|now left].
Qed.

Lemma dir_Walk_error_visits_nothing_witness :
  [] = @nil (string * option node)
  /\ (PathError "open" "missing" ErrNotExist
      = PathError "open" (normalize "/missing") ErrNotExist
      \/ PathError "open" "missing" ErrNotExist
         = PathError "walk" "/missing" errIsFile).
Proof.
  apply (dir_Walk_error_visits_nothing _ sampleTree "/missing" (recorder false)).
  reflexivity.
Defined.

(** X6: in a chain of memory trees the first tree in which the root opens
    decides the walk: the trees before it, in which it does not open, add
    nothing, and the trees after it are not walked. *)
Theorem fallbackFS_Walk_memory_trees (W : Type) (pre post : list dir)
    (d : dir) (root : string) (fn : WalkFunc W node) (w : W) :
  (forall d', In d' pre -> snd (dir_Open d' root) <> None) ->
  snd (dir_Open d root) = None ->
  fallbackFS_Walk (map dirFS (pre ++ d :: post)) root fn w
  = dir_Walk d root fn w.
Proof.
  intros Hpre Hd. rewrite map_app.
  rewrite (fallbackFS_Walk_app W node node _ _ root fn w w
             (walks_continue_missing W pre root fn w Hpre)).
  cbn [map fallbackFS_Walk Walk dirFS].
  unfold dir_Walk.
  destruct (dir_Open d root) as [x [e|]]; [discriminate|].
  destruct x as [[dd|f]|]; [|reflexivity|reflexivity].
  now rewrite dir_walk_visits.
Qed.

Lemma fallbackFS_Walk_memory_trees_witness :
  fallbackFS_Walk (map dirFS ([emptyRoot] ++ sampleTree :: [sampleTree])) "dir"
    (recorder false) []
  = dir_Walk sampleTree "dir" (recorder false) [].
Proof.
  apply (fallbackFS_Walk_memory_trees _ [emptyRoot] [sampleTree] sampleTree "dir").
  - intros d' [<-|[]]. discriminate.
  - reflexivity.
Defined.

(** ** Listing a directory *)

(** X5: [Readdir] on a directory returns, whatever [count] is, no error and
    one entry for every key of the two maps, the files first: the entry
    of a file key is the handle that the key opens, the entry of a
    directory key is the directory under that key; no entry is nil. *)
Theorem dir_Readdir_children (d : dir) (count : Z) :
  wf d = true ->
  dir_Readdir d count
  = (map (fun kv => node_at d [fst kv] KFile) (dir_files d)
       ++ map (fun kv => node_at d [fst kv] KDir) (dir_dirs d),
     None)
  /\ Forall (fun x => x <> None) (fst (dir_Readdir d count))
  /\ List.length (fst (dir_Readdir d count))
     = (List.length (dir_files d) + List.length (dir_dirs d))%nat.
Proof.
  intros Hwf. destruct (wf_parts d Hwf) as [_ [Hd _]].
  assert (Hdirs :
    map (fun kv : string * dir => Some (NDir (snd kv))) (dir_dirs d)
    = map (fun kv => node_at d [fst kv] KDir) (dir_dirs d)).
  { apply map_ext_in. intros [n dd] Hin. cbn [node_at fst snd].
    now rewrite (lookup_distinct n dd _ Hd Hin). }
  repeat split.
  - unfold dir_Readdir. now rewrite Hdirs.
  - unfold dir_Readdir. cbn [fst]. apply Forall_app. split.
    + apply Forall_forall. intros x Hx.
      apply in_map_iff in Hx. destruct Hx as [[n f] [<- Hin]].
      cbn [fst]. unfold dir_file.
      destruct (lookup n (dir_files d)) eqn:E; [discriminate|].
      exfalso. revert E. apply lookup_In_keys.
      apply in_map_iff. now exists (n, f).
    + apply Forall_forall. intros x Hx.
      apply in_map_iff in Hx. destruct Hx as [kv [<- _]]. discriminate.
  - unfold dir_Readdir. cbn [fst]. now rewrite length_app, !length_map.
Qed.

Lemma dir_Readdir_children_witness :
  List.length (fst (dir_Readdir sampleTree 1)) = 2%nat.
Proof.
  apply (proj2 (proj2 (dir_Readdir_children sampleTree 1 eq_refl))).
Defined.

(** ** Paths of plain names *)

Lemma plain_parts n :
  plain n = true ->
  (n =? "") = false /\ (n =? ".") = false /\ (n =? "..") = false
  /\ has_sep n = false.
Proof.
  unfold plain. intros H.
  repeat (apply andb_prop in H; destruct H as [H ?]).
  repeat split; now apply negb_true_iff.
Qed.

Lemma clean_step_plain r out c :
  plain c = true -> clean_step r out c = c :: out.
Proof.
  intros H. destruct (plain_parts c H) as [H1 [H2 [H3 _]]].
  unfold clean_step. now rewrite H1, H2, H3.
Qed.

Lemma fold_clean_plain r cs :
  forallb plain cs = true ->
  forall acc, fold_left (clean_step r) cs acc = rev cs ++ acc.
Proof.
  induction cs as [|c cs IH]; intros H acc; [reflexivity|].
  cbn [forallb] in H. apply andb_prop in H. destruct H as [Hc Hcs].
  cbn [fold_left rev]. rewrite clean_step_plain by exact Hc.
  rewrite IH by exact Hcs. now rewrite <- app_assoc.
Qed.

Lemma Split_nosep n : has_sep n = false -> Split n = [n].
Proof.
  induction n as [|c n IH]; [reflexivity|].
  cbn [has_sep Split]. intros H. apply orb_false_iff in H. destruct H as [Hc Hn].
  now rewrite Hc, (IH Hn).
Qed.

Lemma Split_app_sep (a b : string) :
  Split (a ++ String Separator b) = Split a ++ Split b.
Proof.
  induction a as [|c a IH].
  - reflexivity.
  - cbn [String.append Split]. destruct (isSep c).
    + now rewrite IH.
    + rewrite IH. pose proof (Split_not_nil a) as Hn.
      destruct (Split a); [congruence|reflexivity].
Qed.

Lemma string_append_assoc (a b c : string) :
  ((a ++ b) ++ c = a ++ (b ++ c))%string.
Proof.
  induction a as [|ch a IH]; [reflexivity|].
  cbn [String.append]. now rewrite IH.
Qed.

Lemma JoinSep_snoc cs n :
  cs <> [] -> JoinSep (cs ++ [n]) = (JoinSep cs ++ String Separator n)%string.
Proof.
  induction cs as [|c cs IH]; [congruence|]. intros _.
  destruct cs as [|c' cs]; [reflexivity|].
  change ((c :: c' :: cs) ++ [n]) with (c :: ((c' :: cs) ++ [n])).
  rewrite (JoinSep_cons c ((c' :: cs) ++ [n])) by discriminate.
  rewrite IH by discriminate.
  rewrite (JoinSep_cons c (c' :: cs)) by discriminate.
  rewrite string_append_assoc. reflexivity.
Qed.

Lemma forallb_plain_nosep cs :
  forallb plain cs = true -> Forall (fun c => has_sep c = false) cs.
Proof.
  rewrite forallb_forall. intros H. apply Forall_forall. intros c Hc.
  now apply plain_parts, H.
Qed.

Lemma Split_JoinSep cs :
  cs <> [] -> Forall (fun c => has_sep c = false) cs -> Split (JoinSep cs) = cs.
Proof.
  induction cs as [|c cs IH]; [congruence|]. intros _ H.
  inversion H as [|? ? Hc Hcs]; subst.
  destruct cs as [|c' cs]; [now apply Split_nosep|].
  rewrite JoinSep_cons by discriminate.
  rewrite Split_app_sep, (Split_nosep c Hc), IH by (discriminate || assumption).
  reflexivity.
Qed.

Lemma rooted_JoinSep_plain c cs :
  plain c = true -> rooted (JoinSep (c :: cs)) = false.
Proof.
  intros H. destruct (plain_parts c H) as [H1 [_ [_ H4]]].
  destruct c as [|ch c]; [discriminate|].
  cbn [has_sep] in H4. apply orb_false_iff in H4. destruct H4 as [Hch _].
  destruct cs as [|c' cs]; [exact Hch|].
  rewrite JoinSep_cons by discriminate. exact Hch.
Qed.

(** A path made of plain names is its own normal form. *)
Lemma Clean_JoinSep_plain cs :
  cs <> [] -> forallb plain cs = true -> Clean (JoinSep cs) = JoinSep cs.
Proof.
  intros Hne H. destruct cs as [|c cs]; [congruence|].
  assert (Hc : plain c = true).
  { cbn [forallb] in H. now apply andb_prop in H. }
  unfold Clean.
  rewrite (rooted_JoinSep_plain c cs Hc).
  rewrite Split_JoinSep by (discriminate || now apply forallb_plain_nosep).
  rewrite fold_clean_plain by exact H.
  rewrite app_nil_r, rev_involutive. reflexivity.
Qed.

Lemma normalize_JoinSep_plain cs :
  cs <> [] -> forallb plain cs = true -> normalize (JoinSep cs) = JoinSep cs.
Proof.
  intros Hne H. unfold normalize. rewrite Clean_JoinSep_plain by assumption.
  destruct cs as [|c cs]; [congruence|].
  assert (Hc : plain c = true).
  { cbn [forallb] in H. now apply andb_prop in H. }
  pose proof (rooted_JoinSep_plain c cs Hc) as Hr.
  destruct (JoinSep (c :: cs)) as [|ch r]; [reflexivity|].
  cbn [rooted] in Hr. cbn [TrimLeftSep]. now rewrite Hr.
Qed.

Lemma unsplit_JoinSep_plain cs :
  cs <> [] -> forallb plain cs = true -> unsplit (JoinSep cs) = false.
Proof.
  intros Hne H.
  assert (HS : Split (JoinSep cs) = cs).
  { apply Split_JoinSep; [exact Hne|now apply forallb_plain_nosep]. }
  destruct (unsplit (JoinSep cs)) eqn:U; [|reflexivity].
  unfold unsplit in U.
  assert (Hcase : JoinSep cs = "" \/ JoinSep cs = ".." \/ JoinSep cs = ".").
  { apply orb_prop in U. destruct U as [U|U].
    - apply orb_prop in U. destruct U as [U|U]; apply String.eqb_eq in U; tauto.
    - apply String.eqb_eq in U. tauto. }
  destruct Hcase as [E|[E|E]]; rewrite E in HS; cbn in HS; rewrite <- HS in H;
    discriminate H.
Qed.

Lemma JoinSep_plain_not_empty cs :
  cs <> [] -> forallb plain cs = true -> (JoinSep cs =? "") = false.
Proof.
  intros Hne H. pose proof (unsplit_JoinSep_plain cs Hne H) as U.
  unfold unsplit in U. apply orb_false_iff in U. destruct U as [U _].
  now apply orb_false_iff in U.
Qed.

Lemma Join_plain_next cs n :
  cs <> [] -> forallb plain cs = true -> plain n = true ->
  Join [JoinSep cs; n] = JoinSep (cs ++ [n]).
Proof.
  intros Hne H Hn. cbn [Join].
  rewrite (JoinSep_plain_not_empty cs Hne H).
  change (JoinSep [JoinSep cs; n])
    with (JoinSep cs ++ String Separator n)%string.
  rewrite <- JoinSep_snoc by exact Hne.
  apply Clean_JoinSep_plain.
  - destruct cs; discriminate.
  - rewrite forallb_app, H. cbn [forallb]. now rewrite Hn.
Qed.

Lemma Join_dot_plain n : plain n = true -> Join ["."; n] = n.
Proof.
  intros Hn. destruct (plain_parts n Hn) as [_ [_ [_ Hs]]].
  assert (HJ : Join ["."; n] = Clean ("." ++ String Separator n)) by reflexivity.
  assert (HS : Split ("." ++ String Separator n) = ["."; n]).
  { rewrite Split_app_sep, (Split_nosep n Hs). reflexivity. }
  assert (HR : rooted ("." ++ String Separator n) = false) by reflexivity.
  rewrite HJ. unfold Clean. rewrite HS, HR.
  cbn [fold_left].
  replace (clean_step false [] ".") with (@nil string) by reflexivity.
  rewrite clean_step_plain by exact Hn. reflexivity.
Qed.

Lemma path_at_JoinSep names :
  forallb plain names = true ->
  forall cs,
    cs <> [] -> forallb plain cs = true ->
    path_at (JoinSep cs) names = JoinSep (cs ++ names).
Proof.
  induction names as [|n names IH]; intros H cs Hne Hcs.
  - now rewrite app_nil_r.
  - cbn [forallb] in H. apply andb_prop in H. destruct H as [Hn Hnames].
    unfold path_at. cbn [fold_left]. fold (path_at (Join [JoinSep cs; n]) names).
    rewrite Join_plain_next by assumption.
    rewrite IH.
    + now rewrite <- app_assoc.
    + exact Hnames.
    + destruct cs; discriminate.
    + rewrite forallb_app, Hcs. cbn [forallb]. now rewrite Hn.
Qed.

(** Under the root [.] the path reported for plain names is the names
    joined by the separator. *)
Lemma path_at_dot names :
  names <> [] -> forallb plain names = true ->
  path_at "." names = JoinSep names.
Proof.
  intros Hne H. destruct names as [|n names]; [congruence|].
  cbn [forallb] in H. apply andb_prop in H. destruct H as [Hn Hnames].
  unfold path_at. cbn [fold_left]. fold (path_at (Join ["."; n]) names).
  rewrite Join_dot_plain by exact Hn.
  change n with (JoinSep [n]) at 1.
  rewrite path_at_JoinSep; [reflexivity|exact Hnames|discriminate|].
  cbn [forallb]. now rewrite Hn.
Qed.

(** X4: what a walk of the whole tree reports can be opened again: for an
    entry below the root whose names are plain, [Open] on the reported
    path returns the reported member and no error, unless the member is a
    directory and a file of the same name stands beside it. *)
Theorem walked_path_reopens (d : dir) (a : address) (x : node) :
  fst a <> [] ->
  forallb plain (fst a) = true ->
  snd (entry d "." a) = Some x ->
  snd a = KFile \/ node_at d (fst a) KFile = None ->
  dir_Open d (fst (entry d "." a)) = (Some x, None).
Proof.
  destruct a as [names k]. unfold entry. cbn [fst snd].
  intros Hne Hp Hx Hk.
  rewrite (path_at_dot names Hne Hp).
  rewrite dir_Open_split
    by (rewrite normalize_JoinSep_plain by assumption;
        now apply unsplit_JoinSep_plain).
  rewrite normalize_JoinSep_plain by assumption.
  rewrite Split_JoinSep by (assumption || now apply forallb_plain_nosep).
  rewrite (open_loop_node_at names Hne).
  destruct Hk as [->|Hk].
  - now rewrite Hx.
  - rewrite Hk. destruct k; [congruence|]. now rewrite Hx.
Qed.

Lemma walked_path_reopens_witness :
  dir_Open sampleTree (fst (entry sampleTree "." (["dir"; "a.txt"], KFile)))
  = (Some (NFile (mkFile "a.txt" 0 [] (Some (NewReader [x00; xff])))), None).
Proof.
  apply (walked_path_reopens sampleTree (["dir"; "a.txt"], KFile)).
  - discriminate.
  - reflexivity.
  - reflexivity.
  - now left.
Defined.

(** ** Walks that return nil *)

(** X8: when [Walk] on a chain returns nil, either every backend failed with
    an error after which the chain goes on, or one backend, after such
    failures of all before it, returned nil itself and the backends after
    it were not walked. *)
Theorem fallbackFS_Walk_nil_origin (W File FileInfo : Type)
    (fs : fallbackFS W File FileInfo) (root : string)
    (f : WalkFunc W FileInfo) (w w' : W) :
  fallbackFS_Walk fs root f w = (None, w') ->
  walks_continue fs root f w = Some w'
  \/ exists pre b post w1,
       fs = pre ++ b :: post
       /\ walks_continue pre root f w = Some w1
       /\ Walk b root f w1 = (None, w').
Proof.
  revert w. induction fs as [|b fs IH]; intros w H.
  - left. cbn in *. now injection H as <-.
  - cbn [fallbackFS_Walk] in H.
    destruct (Walk b root f w) as [[e|] w0] eqn:Hb.
    + destruct (continues root e) eqn:Hc; [|discriminate].
      destruct (IH _ H) as [Hall|[pre [b' [post [w1 [-> [Hpre Hb']]]]]]].
      * left. cbn [walks_continue]. now rewrite Hb, Hc.
      * right. exists (b :: pre), b', post, w1. repeat split; [|exact Hb'].
        cbn [walks_continue]. now rewrite Hb, Hc.
    + injection H as <-. right. exists [], b, fs, w. now repeat split.
Qed.

Lemma fallbackFS_Walk_nil_origin_witness :
  walks_continue [vanished; healthy] "dir" logger []
  = Some ["dir"; "dir/a.txt"; "dir/b.txt"; "dir"; "dir/a.txt"; "dir/b.txt"]
  \/ exists pre b post w1,
       [vanished; healthy] = pre ++ b :: post
       /\ walks_continue pre "dir" logger [] = Some w1
       /\ Walk b "dir" logger w1
          = (None, ["dir"; "dir/a.txt"; "dir/b.txt"; "dir"; "dir/a.txt"; "dir/b.txt"]).
Proof.
  apply (fallbackFS_Walk_nil_origin _ _ _ [vanished; healthy] "dir" logger []).
  reflexivity.
Defined.

(** ** The subtree view of a memory tree *)

(** X13: the view at [p] of a memory tree walks the directory that the join
    of [p] and the root opens, and reports every entry under that joined
    path, the directory itself first: the prefix is not taken off the
    paths the visitor receives. *)
Theorem Subdir_dirFS_Walk (W : Type) (d x : dir) (p root : string)
    (fn : WalkFunc W node) (w : W) :
  dir_Open d (Join [p; root]) = (Some (NDir x), None) ->
  Walk (Subdir (dirFS d) p) root fn w
  = (None, fold_left (call fn) (visits x (Join [p; root])) w)
  /\ hd_error (visits x (Join [p; root])) = Some (Join [p; root], Some (NDir x)).
Proof.
  intros H. split.
  - cbn [Walk Subdir]. unfold subdir_Walk. cbn [subdir_fs subdir_path Walk dirFS].
    unfold dir_Walk. rewrite H. apply dir_walk_visits.
  - now rewrite visits_unfold.
Qed.

Lemma Subdir_dirFS_Walk_witness :
  Walk (Subdir (dirFS sampleTree) "dir") "." (recorder false) []
  = (None, fold_left (call (recorder false))
             (visits (mkDir "dir" [("a.txt", mkFile "a.txt" 0 [x00; xff] None)] [])
                     (Join ["dir"; "."])) [])
  /\ hd_error (visits (mkDir "dir" [("a.txt", mkFile "a.txt" 0 [x00; xff] None)] [])
                 (Join ["dir"; "."]))
     = Some (Join ["dir"; "."],
             Some (NDir (mkDir "dir" [("a.txt", mkFile "a.txt" 0 [x00; xff] None)] []))).
Proof.
  apply (Subdir_dirFS_Walk _ sampleTree
           (mkDir "dir" [("a.txt", mkFile "a.txt" 0 [x00; xff] None)] [])
           "dir" "." (recorder false) []).
  reflexivity.
Defined.
